(** * py_structure: module resolution and dependency queries

    A shallow embedding of [py_structure.py] and the proofs of the
    properties its specification states about it.

    - A Python [str] is a [list ascii]; literals are written [lit "..."].
    - [os.path] is the POSIX flavour ([posixpath]); the working directory
      read by [os.path.abspath] is an explicit argument [cwd].
    - The file system is what the program asks of it: [isfile], the
      content of a file as the list of nodes [ast.walk] yields, [os.walk]
      as the list of visited directories, [Path.resolve] as a function.
    - A Python [set] is a [gset] and a [dict] a [gmap]. A [for] loop over
      a set runs through its elements in the order an oracle [iter]
      gives; the properties hold for every oracle.
    - The [while] loop of the search runs on fuel; [trace_result] shows
      that the fuel given is enough. *)

From Stdlib Require Import Ascii String ZArith Lia.
From stdpp Require Import base option list sorting gmap sets strings.

Set Warnings "-clear-no-such-hyp".

Abbreviation str := (list ascii).

Definition lit (s : string) : str := list_ascii_of_string s.
Arguments lit s%_string : simpl never.

(** ** Python string and list primitives *)

Module PyStr.

(** [s.startswith(p)] *)
Definition startswith (s p : str) : bool :=
  bool_decide (take (length p) s = p).

(** [s.endswith(p)] *)
Definition endswith (s p : str) : bool :=
  bool_decide (drop (length s - length p) s = p).

(** [s.split(sep)] for a one-character separator: never empty,
    [''.split('/') == ['']]. *)
Fixpoint split (sep : ascii) (s : str) : list str :=
  match s with
  | [] => [[]]
  | c :: s' =>
      if bool_decide (c = sep) then [] :: split sep s'
      else match split sep s' with
           | w :: ws => (c :: w) :: ws
           | [] => [[c]]
           end
  end.

(** [sep.join(l)] *)
Fixpoint join (sep : str) (l : list str) : str :=
  match l with
  | [] => []
  | [w] => w
  | w :: ws => w ++ sep ++ join sep ws
  end.

(** [l[:stop]] with Python's treatment of negative and
    out-of-range bounds. *)
Definition slice_to {A} (l : list A) (stop : Z) : list A :=
  let n := Z.of_nat (length l) in
  let k := if (stop <? 0)%Z then Z.max 0 (stop + n) else Z.min stop n in
  take (Z.to_nat k) l.

(** [l[-1]] of a list known to be non-empty (the result of [split]). *)
Definition last_item (l : list str) : str := default [] (last l).

(** truthiness of a list or string *)
Definition truthy {A} (l : list A) : bool :=
  match l with [] => false | _ => true end.

End PyStr.

(** ** [posixpath] *)

Module posixpath.
Import PyStr.

Definition sep : ascii := "/"%char.
Definition curdir : str := lit ".".
Definition pardir : str := lit "..".

Definition isabs (s : str) : bool := startswith s [sep].

(** one round of the loop of [join(a, *p)] *)
Definition join_step (path b : str) : str :=
  if startswith b [sep] then b
  else if negb (truthy path) || endswith path [sep] then path ++ b
  else path ++ [sep] ++ b.

Definition join (a : str) (p : list str) : str := fold_left join_step p a.

(** one round of the loop of [normpath]; [initial_slashes] is 0, 1 or 2 *)
Definition norm_step (initial_slashes : nat) (new_comps : list str)
    (comp : str) : list str :=
  if bool_decide (comp = []) || bool_decide (comp = curdir) then new_comps
  else if negb (bool_decide (comp = pardir))
          || (bool_decide (initial_slashes = 0) && negb (truthy new_comps))
          || (truthy new_comps && bool_decide (last new_comps = Some pardir))
  then new_comps ++ [comp]
  else removelast new_comps.

Definition initial_slashes (path : str) : nat :=
  if startswith path [sep] then
    if startswith path [sep; sep] && negb (startswith path [sep; sep; sep])
    then 2 else 1
  else 0.

Definition normpath (path : str) : str :=
  if negb (truthy path) then curdir
  else
    let n := initial_slashes path in
    let comps := fold_left (norm_step n) (split sep path) [] in
    let path := replicate n sep ++ PyStr.join [sep] comps in
    if truthy path then path else curdir.

Definition abspath (cwd path : str) : str :=
  normpath (if isabs path then path else join cwd [path]).

(** [commonprefix([l1, l2])] on two lists of components: the longest
    list that starts both. *)
Fixpoint commonprefix (l1 l2 : list str) : list str :=
  match l1, l2 with
  | x :: l1', y :: l2' =>
      if bool_decide (x = y) then x :: commonprefix l1' l2' else []
  | _, _ => []
  end.

(** [[x for x in abspath(path).split(sep) if x]], the list [relpath]
    takes of each of its arguments: the components of the absolute path *)
Definition parts (cwd path : str) : list str :=
  List.filter truthy (split sep (abspath cwd path)).

(** [relpath(path, start)]; [None] stands for the [ValueError] raised
    on an empty [path], which [get_module_name] never passes
    ([truthy_abspath]). The components are glued with [join], applied to
    the list [rel_list]; [relpath_under] shows that this is the join with
    slashes. *)
Definition relpath (cwd path start : str) : option str :=
  if negb (truthy path) then None
  else
    let start_list := parts cwd start in
    let path_list := parts cwd path in
    let i := length (commonprefix start_list path_list) in
    let rel_list :=
      replicate (length start_list - i) pardir ++ drop i path_list in
    match rel_list with
    | [] => Some curdir
    | a :: p => Some (join a p)
    end.

End posixpath.

(** ** Module Resolver *)

Definition get_module_name (cwd root file_path : str) : option str :=
  let root := posixpath.abspath cwd root in
  let file_path := posixpath.abspath cwd file_path in
  if negb (PyStr.endswith file_path (lit ".py"))
     || negb (PyStr.startswith file_path root)
  then None
  else
    match posixpath.relpath cwd file_path root with
    | None => None
    | Some relative_path =>
        if PyStr.startswith relative_path (lit "..") then None
        else
          Some (PyStr.last_item (PyStr.split posixpath.sep root)
                  ++ lit "."
                  ++ PyStr.join (lit ".")
                       (PyStr.split posixpath.sep
                          (PyStr.slice_to relative_path (-3))))
    end.

Definition invalid : str := lit "<invalid>".

Definition resolve_relative_import (caller_parts : list str) (level : Z)
    (module : option str) : str :=
  if (level >? Z.of_nat (length caller_parts))%Z then invalid
  else
    let base := PyStr.slice_to caller_parts (- level) in
    let base :=
      match module with
      | Some m => if PyStr.truthy m then base ++ PyStr.split "."%char m else base
      | None => base
      end in
    PyStr.join (lit ".") base.

(** ** Import Extractor *)

(** An [ast.alias]; only [name] is read. *)
Record alias := { alias_name : str }.

(** The nodes [ast.walk] yields, as far as [analyze_imports] tells them
    apart. *)
Inductive ast_node :=
| Import (names : list alias)
| ImportFrom (module : option str) (names : list alias) (level : Z)
| OtherNode.

Section Extractor.
(** the process's working directory *)
Variable cwd : str.
(** [os.path.isfile] *)
Variable isfile : str -> bool.
(** reading and parsing a file, then [ast.walk] over the tree;
    [None] is any exception raised on the way *)
Variable parse_file : str -> option (list ast_node).
(** [os.walk(root)]: the visited directories with their file names *)
Variable walk : str -> list (str * list str).

(** the target of one name of an absolute [from module import name] *)
Definition from_target (root module name : str) : str :=
  let full_module_path :=
    posixpath.join root (PyStr.split "."%char module ++ [name ++ lit ".py"]) in
  let full_package_path :=
    posixpath.join root
      (PyStr.split "."%char module ++ [name; lit "__init__.py"]) in
  if isfile full_module_path || isfile full_package_path
  then module ++ lit "." ++ name
  else module.

(** the body of the loop over [ast.walk(tree)] *)
Definition node_edges (root caller_module : str) (caller_parts : list str)
    (node : ast_node) : list (str * str) :=
  match node with
  | Import names => map (fun a => (caller_module, alias_name a)) names
  | ImportFrom module names level =>
      if (level >? 0)%Z then
        [(caller_module, resolve_relative_import caller_parts level module)]
      else
        match module with
        | Some m =>
            if PyStr.truthy m then
              map (fun a => (caller_module, from_target root m (alias_name a)))
                  names
            else []
        | None => []
        end
  | OtherNode => []
  end.

Definition analyze_imports (root file_path : str) : list (str * str) :=
  match get_module_name cwd root file_path with
  | None => []
  | Some caller_module =>
      if negb (PyStr.truthy caller_module) then []
      else
        let caller_parts := PyStr.split "."%char caller_module in
        match parse_file file_path with
        | None => []
        | Some nodes =>
            flat_map (node_edges root caller_module caller_parts) nodes
        end
  end.

(** ** Graph Builder *)

(** the files of one root that are given a module name, in discovery
    order: (module, root, file_path) *)
Definition discover (root : str) : list (str * (str * str)) :=
  flat_map (fun '(dirpath, filenames) =>
    flat_map (fun filename =>
      if PyStr.endswith filename (lit ".py") then
        let file_path := posixpath.join dirpath [filename] in
        match get_module_name cwd root file_path with
        | Some module =>
            if PyStr.truthy module then [(module, (root, file_path))] else []
        | None => []
        end
      else []) filenames) (walk root).

Definition collect_modules_and_imports (roots : list str)
    : gset str * list (str * str) * gmap str str :=
  let found := flat_map discover roots in
  let modules : gset str := list_to_set (map fst found) in
  let files := map snd found in
  let module_to_path :=
    fold_left (fun (m : gmap str str) '(module, (_, file_path)) =>
                 <[module := posixpath.abspath cwd file_path]> m) found ∅ in
  let imports := flat_map (fun '(root, file_path) =>
                             analyze_imports root file_path) files in
  (modules, imports, module_to_path).

End Extractor.

(** ** Reverse graph and multi-source breadth-first search *)

Section Graph.
Context `{Countable node}.

Definition build_reverse_dep_graph (imports : list (node * node))
    : gmap node (gset node) :=
  fold_left (fun (reverse_deps : gmap node (gset node)) '(caller, imported) =>
               <[imported := default ∅ (reverse_deps !! imported) ∪ {[caller]}]>
                 reverse_deps)
            imports ∅.

(** The order in which a [for] loop runs through a set: [iter None] for
    the loop over [start_modules], [iter (Some current)] for the loop
    over the dependents of [current]. *)
Variable iter : option node -> gset node -> list node.

Record bfs_state := {
  queue : list (node * list node);
  visited : gset node;
  paths : gmap node (list node)
}.

(** the body of the inner loop, for one [dependent] *)
Definition bfs_visit (path : list node) (st : bfs_state) (dependent : node)
    : bfs_state :=
  if decide (dependent ∈ visited st) then st
  else {| visited := visited st ∪ {[dependent]};
          paths := <[dependent := path ++ [dependent]]> (paths st);
          queue := queue st ++ [(dependent, path ++ [dependent])] |}.

(** [reverse_deps.get(current, [])], in iteration order *)
Definition dependents_of (reverse_deps : gmap node (gset node))
    (current : node) : list node :=
  match reverse_deps !! current with
  | Some s => iter (Some current) s
  | None => []
  end.

(** one round of [while queue] *)
Definition bfs_round (reverse_deps : gmap node (gset node))
    (current : node) (path : list node) (st : bfs_state) : bfs_state :=
  fold_left (bfs_visit path) (dependents_of reverse_deps current) st.

(** the [while] loop; [None] when [fuel] rounds were not enough *)
Fixpoint bfs_loop (fuel : nat) (reverse_deps : gmap node (gset node))
    (st : bfs_state) : option (gmap node (list node)) :=
  match queue st with
  | [] => Some (paths st)
  | (current, path) :: rest =>
      match fuel with
      | 0 => None
      | S fuel' =>
          bfs_loop fuel' reverse_deps
            (bfs_round reverse_deps current path
               {| queue := rest; visited := visited st; paths := paths st |})
      end
  end.

(** every node the search can ever see *)
Definition universe (reverse_deps : gmap node (gset node))
    (start_modules : gset node) : gset node :=
  start_modules ∪ ⋃ (map snd (map_to_list reverse_deps)).

Definition bfs_init (start_modules : gset node) : bfs_state :=
  {| paths := ∅;
     queue := map (fun m => (m, [m])) (iter None start_modules);
     visited := start_modules |}.

Definition trace_dependency_paths (reverse_deps : gmap node (gset node))
    (start_modules : gset node) : option (gmap node (list node)) :=
  bfs_loop (size (universe reverse_deps start_modules)) reverse_deps
           (bfs_init start_modules).

End Graph.

Arguments bfs_state node {_ _}.

(** ** Query Engine *)

(** What a mode of [main] does: print a result, stop with the usage
    message, or (in this model only) run out of fuel. *)
Inductive outcome (A : Type) :=
| Reported (a : A)
| UsageError
| Unfinished.
Arguments Reported {A} a.
Arguments UsageError {A}.
Arguments Unfinished {A}.

Section Queries.
Variable cwd : str.
Variable walk : str -> list (str * list str).
(** [Path(p).resolve()], as the tuple of parts of the resolved path *)
Variable resolve : str -> list str.
Variable iter : option str -> gset str -> list str.

(** mode [nodeps] *)
Definition has_deps (all_modules : gset str) (all_imports : list (str * str))
    : gset str :=
  list_to_set
    (map fst (List.filter (fun e => bool_decide (e.2 ∈ all_modules)) all_imports)).

Definition nodeps (all_modules : gset str) (all_imports : list (str * str))
    : gset str :=
  all_modules ∖ has_deps all_modules all_imports.

(** modes [pkg_dep] and [not_pkg_dep] *)
Definition direct_dependents (package : str) (all_imports : list (str * str))
    : gset str :=
  list_to_set
    (map fst
       (List.filter
          (fun e => bool_decide (e.2 = package)
                    || PyStr.startswith e.2 (package ++ lit "."))
          all_imports)).

Definition not_pkg_dep (all_modules : gset str)
    (all_imports : list (str * str)) (package : option str)
    : outcome (gset str) :=
  match package with
  | None => UsageError
  | Some package =>
      if negb (PyStr.truthy package) then UsageError
      else
        let reverse_deps := build_reverse_dep_graph all_imports in
        let direct := direct_dependents package all_imports in
        match trace_dependency_paths iter reverse_deps direct with
        | None => Unfinished
        | Some paths =>
            let all_dependent := dom paths ∪ direct in
            Reported (all_modules ∖ all_dependent)
        end
  end.

(** mode [encapsulated_dir] *)

(** [p.relative_to(d)] succeeds *)
Definition relative_to (p d : list str) : bool :=
  bool_decide (take (length d) p = d).

(** the edges of [module] that leave the tree of [dirpath_obj] *)
Definition outside_deps (dirpath_obj : list str) (module : str)
    (all_imports : list (str * str)) (module_to_path : gmap str str)
    : list (str * str) :=
  flat_map (fun '(caller, imported) =>
    if bool_decide (caller ≠ module) then []
    else match module_to_path !! imported with
         | Some p =>
             if relative_to (resolve p) dirpath_obj then []
             else [(caller, imported)]
         | None => []
         end) all_imports.

(** the loop over [filenames] of one directory:
    ([local_modules], [local_outside_deps]) *)
Definition dir_scan (root_dir dirpath : str) (filenames : list str)
    (all_imports : list (str * str)) (module_to_path : gmap str str)
    : list str * list (str * str) :=
  let dirpath_obj := resolve dirpath in
  fold_left (fun '(local_modules, local_outside_deps) filename =>
    if negb (PyStr.endswith filename (lit ".py")) then
      (local_modules, local_outside_deps)
    else
      let file_path := posixpath.join dirpath [filename] in
      match get_module_name cwd root_dir file_path with
      | Some module =>
          if negb (PyStr.truthy module)
             || negb (bool_decide (is_Some (module_to_path !! module)))
          then (local_modules, local_outside_deps)
          else (local_modules ++ [module],
                local_outside_deps
                  ++ outside_deps dirpath_obj module all_imports module_to_path)
      | None => (local_modules, local_outside_deps)
      end) filenames ([], []).

Definition dir_reported (root_dir dirpath : str) (filenames : list str)
    (all_imports : list (str * str)) (module_to_path : gmap str str) : bool :=
  let '(local_modules, local_outside_deps) :=
    dir_scan root_dir dirpath filenames all_imports module_to_path in
  PyStr.truthy local_modules && negb (PyStr.truthy local_outside_deps).

Definition encapsulated_dir (roots : list str)
    (all_imports : list (str * str)) (module_to_path : gmap str str)
    : list (list str) :=
  flat_map (fun root_dir =>
    flat_map (fun '(dirpath, filenames) =>
      if dir_reported root_dir dirpath filenames all_imports module_to_path
      then [resolve dirpath] else []) (walk root_dir)) roots.

End Queries.

(** ** Query Engine: the other modes *)

(** [pathlib]: a pure POSIX path is its root (no, one or two slashes)
    and its components; empty components and [.] are dropped when the
    path is built from a string. *)
Module pathlib.

Definition parse (s : str) : nat * list str :=
  (posixpath.initial_slashes s,
   List.filter
     (fun x => PyStr.truthy x && negb (bool_decide (x = posixpath.curdir)))
     (PyStr.split posixpath.sep s)).

(** [p.parent] *)
Definition parent (p : nat * list str) : nat * list str :=
  (p.1, removelast p.2).

(** [str(p)] *)
Definition to_str (p : nat * list str) : str :=
  match p with
  | (0, []) => posixpath.curdir
  | (n, cs) => replicate n posixpath.sep ++ PyStr.join [posixpath.sep] cs
  end.

End pathlib.

(** what mode [pkg_dep] prints for a module of [paths] *)
Inductive dep_line :=
| DirectLine
| IndirectLine (path : list str).

Section MoreQueries.
Variable resolve : str -> list str.
Variable iter : option str -> gset str -> list str.

(** mode [dep]: the edges printed, in the order of the edge list *)
Definition dep (all_modules : gset str) (all_imports : list (str * str))
    : list (str * str) :=
  List.filter (fun e => bool_decide (e.2 ∈ all_modules)) all_imports.

(** mode [nodeps_verbose]: the external imports of [caller] *)
Definition externals (all_modules : gset str)
    (all_imports : list (str * str)) (caller : str) : list str :=
  map snd
    (List.filter
       (fun e => bool_decide (e.1 = caller)
                 && negb (bool_decide (e.2 ∈ all_modules)))
       all_imports).

(** the rows of the table for one module: the module column and the
    import column *)
Definition verbose_rows (caller : str) (externals : list str)
    : list (str * str) :=
  match externals with
  | [] => [(caller, lit "-")]
  | ext :: rest => (caller, ext) :: map (fun ext => ([], ext)) rest
  end.

(** the table, by module; the rows of the modules are printed in the
    sorted order of the modules *)
Definition nodeps_verbose (all_modules : gset str)
    (all_imports : list (str * str)) : gmap str (list (str * str)) :=
  set_to_map
    (fun caller =>
       (caller,
        verbose_rows caller (externals all_modules all_imports caller)))
    (nodeps all_modules all_imports).

(** mode [pkg_dep]: the line of every module of [paths] (first loop) and
    the modules of the second loop; both loops print in sorted order *)
Definition pkg_dep (all_imports : list (str * str)) (package : option str)
    : outcome (gmap str dep_line * gset str) :=
  match package with
  | None => UsageError
  | Some package =>
      if negb (PyStr.truthy package) then UsageError
      else
        let reverse_deps := build_reverse_dep_graph all_imports in
        let direct := direct_dependents package all_imports in
        match trace_dependency_paths iter reverse_deps direct with
        | None => Unfinished
        | Some paths =>
            Reported
              (map_imap
                 (fun module path =>
                    Some (if decide (module ∈ direct) then DirectLine
                          else IndirectLine path)) paths,
               direct ∖ dom paths)
        end
  end.

(** mode [outside_local_dir]: the dictionary [outside_local]. The value
    [relative_to] returns is a path object, which is always true, so the
    [if not ...] branch adds nothing; only the [ValueError] branch does. *)
Definition outside_local_dir (all_imports : list (str * str))
    (module_to_path : gmap str str) : gmap str (list str) :=
  fold_left
    (fun (outside_local : gmap str (list str)) '(caller, imported) =>
       match module_to_path !! imported, module_to_path !! caller with
       | Some imported_file, Some caller_file =>
           let caller_dir :=
             pathlib.to_str (pathlib.parent (pathlib.parse caller_file)) in
           if relative_to (resolve imported_file) (resolve caller_dir)
           then outside_local
           else <[caller := default [] (outside_local !! caller) ++ [imported]]>
                  outside_local
       | _, _ => outside_local
       end)
    all_imports ∅.

End MoreQueries.

(** * Vocabulary of the properties *)

(** the segments a module suffix contributes *)
Definition suffix_segments (module : option str) : list str :=
  match module with
  | Some (c :: m) => PyStr.split "."%char (c :: m)
  | _ => []
  end.

(** a path component that [posixpath.join] glues on with one slash *)
Definition seg_ok (b : str) : Prop := b <> [] /\ posixpath.sep ∉ b.

(** the dotted name [X] written as a relative path *)
Definition as_path (X : str) : str :=
  map (fun c => if bool_decide (c = "."%char) then posixpath.sep else c) X.

(** a component of a normalised absolute path *)
Definition clean (c : str) : Prop :=
  c <> [] /\ (posixpath.sep ∉ c)
  /\ c <> posixpath.curdir /\ c <> posixpath.pardir.

(** the normal form of an absolute path: [n] leading slashes, then the
    components *)
Definition nf (n : nat) (cs : list str) : str :=
  replicate n posixpath.sep ++ PyStr.join [posixpath.sep] cs.

(** the dotted form of a relative path *)
Definition dotted (s : str) : str :=
  map (fun c => if bool_decide (c = posixpath.sep) then "."%char else c) s.

(** the root-relative path of a file below the root, without its last
    three characters *)
Definition stem_of (cwd root file_path : str) : str :=
  PyStr.slice_to
    (PyStr.join [posixpath.sep]
       (drop (length (posixpath.parts cwd root))
             (posixpath.parts cwd file_path))) (-3).

(** the file lies below the root: the components of the root start the
    components of the file *)
Definition under_root (cwd root file_path : str) : Prop :=
  posixpath.parts cwd root `prefix_of` posixpath.parts cwd file_path.

(** the dependents the reverse graph holds for a target *)
Definition deps_of `{Countable node} (reverse_deps : gmap node (gset node))
    (t : node) : gset node :=
  default ∅ (reverse_deps !! t).

Module Encapsulated.
Section Vocabulary.
Variable cwd : str.
Variable module_to_path : gmap str str.
Variables (root_dir dirpath : str).

(** the module of one file name of the directory, if it counts as a
    local module *)
Definition local_of (filename : str) : option str :=
  if PyStr.endswith filename (lit ".py") then
    match get_module_name cwd root_dir (posixpath.join dirpath [filename]) with
    | Some module =>
        if bool_decide (is_Some (module_to_path !! module))
        then Some module else None
    | None => None
    end
  else None.

(** [module] is the known module of a source file directly in the
    directory *)
Definition local_module (filenames : list str) (module : str) : Prop :=
  exists filename,
    filename ∈ filenames
    /\ PyStr.endswith filename (lit ".py") = true
    /\ get_module_name cwd root_dir (posixpath.join dirpath [filename])
       = Some module
    /\ is_Some (module_to_path !! module).

End Vocabulary.
End Encapsulated.

Module Bfs.
Section Vocabulary.
Context `{Countable node}.
Variable reverse_deps : gmap node (gset node).
Variable start_modules : gset node.

(** an edge of the reverse graph: [w] is a dependent of [u] *)
Definition edge (u w : node) : Prop :=
  exists s, reverse_deps !! u = Some s /\ w ∈ s.

(** [p] starts at a seed, follows edges, and ends at [n] *)
Definition seed_path (p : list node) (n : node) : Prop :=
  (exists s, head p = Some s /\ s ∈ start_modules)
  /\ last p = Some n
  /\ forall i u w, p !! i = Some u -> p !! S i = Some w -> edge u w.

(** the same, built the way the search extends paths *)
Inductive walk_to : list node -> node -> Prop :=
| walk_seed s : s ∈ start_modules -> walk_to [s] s
| walk_step p u w : walk_to p u -> edge u w -> walk_to (p ++ [w]) w.

(** the path recorded for a visited node: [[v]] for a seed, the entry
    of [paths] otherwise *)
Definition recorded (paths : gmap node (list node)) (v : node)
    : option (list node) :=
  if decide (v ∈ start_modules) then Some [v] else paths !! v.

(** queue entries are compared by the length of their path *)
Definition qle (a b : node * list node) : Prop := length a.2 <= length b.2.

(** all dependents of [v] have been visited, none further than one hop
    beyond [v] *)
Definition done_at (paths : gmap node (list node)) (v : node)
    (p : list node) : Prop :=
  forall w, edge v w ->
    exists pw, recorded paths w = Some pw /\ length pw <= S (length p).

(** the invariant inside a round that handles [u] *)
Record mid_inv (u : node) (pu : list node) (handled : list node)
    (st : bfs_state node) : Prop := {
  mi_visited : visited st = start_modules ∪ dom (paths st);
  mi_paths : forall v p,
    paths st !! v = Some p -> (v ∉ start_modules) /\ walk_to p v;
  mi_queue : forall v p,
    (v, p) ∈ queue st -> recorded (paths st) v = Some p;
  mi_sorted : StronglySorted qle (queue st);
  mi_lower : forall v p, (v, p) ∈ queue st -> length pu <= length p;
  mi_upper : forall v p,
    recorded (paths st) v = Some p -> length p <= S (length pu);
  mi_done : forall v p,
    recorded (paths st) v = Some p ->
    (exists p', (v, p') ∈ queue st) \/ v = u \/ done_at (paths st) v p;
  mi_cur : recorded (paths st) u = Some pu;
  mi_handled : forall w, w ∈ handled -> is_Some (recorded (paths st) w)
}.

(** the invariant of the [while] loop *)
Record out_inv (st : bfs_state node) : Prop := {
  oi_visited : visited st = start_modules ∪ dom (paths st);
  oi_paths : forall v p,
    paths st !! v = Some p -> (v ∉ start_modules) /\ walk_to p v;
  oi_queue : forall v p,
    (v, p) ∈ queue st -> recorded (paths st) v = Some p;
  oi_sorted : StronglySorted qle (queue st);
  oi_upper : forall u pu rest v p,
    queue st = (u, pu) :: rest ->
    recorded (paths st) v = Some p -> length p <= S (length pu);
  oi_done : forall v p,
    recorded (paths st) v = Some p ->
    (exists p', (v, p') ∈ queue st) \/ done_at (paths st) v p
}.

(** what is left to do: the queue and the nodes not yet visited *)
Definition bfs_measure (st : bfs_state node) : nat :=
  length (queue st)
  + size (universe reverse_deps start_modules ∖ visited st).

End Vocabulary.
End Bfs.

(** [target] names the package or something below it *)
Definition names_package (package target : str) : Prop :=
  target = package \/ exists rest, target = package ++ lit "." ++ rest.

(** [module] imports the package, directly or through a chain of
    imports *)
Inductive depends_on (all_imports : list (str * str)) (package : str)
    : str -> Prop :=
| depends_direct caller target :
    (caller, target) ∈ all_imports -> names_package package target ->
    depends_on all_imports package caller
| depends_via caller target :
    (caller, target) ∈ all_imports ->
    depends_on all_imports package target ->
    depends_on all_imports package caller.

(** every recorded path extends the path recorded for the node before
    its end by one edge *)
Definition pref_inv `{Countable node} (reverse_deps : gmap node (gset node))
    (start_modules : gset node) (paths : gmap node (list node)) : Prop :=
  forall n p,
    paths !! n = Some p ->
    exists u q,
      p = q ++ [n]
      /\ Bfs.recorded start_modules paths u = Some q
      /\ Bfs.edge reverse_deps u n.

(** the path [module_to_path] ends up with for [module]: the one of the
    last discovered file of that name *)
Definition last_path (cwd : str) (found : list (str * (str * str)))
    (module : str) : option str :=
  last (omap (fun '(m, (_, file_path)) =>
                if bool_decide (m = module)
                then Some (posixpath.abspath cwd file_path) else None)
             found).

(** the edge is one mode [outside_local_dir] records: both of its ends
    have a file, and the file of the target is not in the tree of the
    directory of the caller's file *)
Definition outside_edge (resolve : str -> list str)
    (module_to_path : gmap str str) (e : str * str) : bool :=
  match module_to_path !! e.2, module_to_path !! e.1 with
  | Some imported_file, Some caller_file =>
      negb (relative_to (resolve imported_file)
              (resolve (pathlib.to_str
                          (pathlib.parent (pathlib.parse caller_file)))))
  | _, _ => false
  end.


(** * Properties *)

(** ** Strings *)

Section StringFacts.
Import PyStr.

Lemma truthy_true {A} (l : list A) : truthy l = true <-> l <> [].
Proof. destruct l; simpl; split; congruence. Qed.

Lemma truthy_false {A} (l : list A) : truthy l = false <-> l = [].
Proof. destruct l; simpl; split; congruence. Qed.

Lemma startswith_true s p : startswith s p = true <-> exists t, s = p ++ t.
Proof.
  unfold startswith. rewrite bool_decide_eq_true. split.
  - intros E. exists (drop (length p) s).
    rewrite <- E at 1. symmetry. apply take_drop.
  - intros [t ->]. by rewrite take_app_length.
Qed.

Lemma endswith_true s p : endswith s p = true <-> exists t, s = t ++ p.
Proof.
  unfold endswith. rewrite bool_decide_eq_true. split.
  - intros E. exists (take (length s - length p) s).
    rewrite <- E at 2. symmetry. apply take_drop.
  - intros [t ->]. rewrite length_app.
    replace (length t + length p - length p) with (length t) by lia.
    by rewrite drop_app_length.
Qed.

Lemma split_nonempty sep s : split sep s <> [].
Proof.
  destruct s as [|c s]; simpl; [done|].
  case_bool_decide; [done|]. by destruct (split sep s).
Qed.

(** Every character of a segment of [split] comes from the string. *)
Lemma split_chars sep s w c : w ∈ split sep s -> c ∈ w -> c ∈ s.
Proof.
  revert w. induction s as [|a s IH]; simpl; intros w Hw Hc.
  - apply list_elem_of_singleton in Hw. subst. by apply elem_of_nil in Hc.
  - case_bool_decide.
    + apply elem_of_cons in Hw as [->|Hw]; [by apply elem_of_nil in Hc|].
      right. eauto.
    + destruct (split sep s) as [|w0 ws] eqn:E.
      * apply list_elem_of_singleton in Hw. subst.
        apply list_elem_of_singleton in Hc. subst. left.
      * apply elem_of_cons in Hw as [->|Hw].
        -- apply elem_of_cons in Hc as [->|Hc]; [left|right].
           apply (IH w0); [left | done].
        -- right. apply (IH w); [by right | done].
Qed.

(** Every character of a [join] comes from the separator or a segment. *)
Lemma join_chars sep l c :
  c ∈ join sep l -> c ∈ sep \/ exists w, w ∈ l /\ c ∈ w.
Proof.
  induction l as [|w l IH]; simpl.
  - intros Hc. by apply elem_of_nil in Hc.
  - destruct l as [|w' l'].
    + intros Hc. right. exists w. split; [left | done].
    + rewrite !elem_of_app. intros [Hc|[Hc|Hc]].
      * right. exists w. split; [left | done].
      * by left.
      * destruct (IH Hc) as [?|(w0 & ? & ?)]; [by left|].
        right. exists w0. split; [by right | done].
Qed.

Lemma slice_to_neg {A} (l : list A) (k : nat) :
  (0 < k)%nat -> slice_to l (- Z.of_nat k) = take (length l - k) l.
Proof.
  intros Hk. unfold slice_to.
  destruct (Z.ltb_spec (- Z.of_nat k) 0) as [_|?]; [|lia].
  f_equal. lia.
Qed.

End StringFacts.

(** ** Module Resolver: relative imports *)

Lemma resolve_relative_import_underflow caller_parts level module :
  (level > Z.of_nat (length caller_parts))%Z ->
  resolve_relative_import caller_parts level module = invalid.
Proof.
  intros Hl. unfold resolve_relative_import.
  destruct (Z.gtb_spec level (Z.of_nat (length caller_parts))); [done | lia].
Qed.

Lemma resolve_relative_import_in_range caller_parts level module :
  (1 <= level <= Z.of_nat (length caller_parts))%Z ->
  resolve_relative_import caller_parts level module
  = PyStr.join (lit ".")
      (take (length caller_parts - Z.to_nat level) caller_parts
         ++ suffix_segments module).
Proof.
  intros Hl. unfold resolve_relative_import.
  destruct (Z.gtb_spec level (Z.of_nat (length caller_parts))); [lia|].
  replace (- level)%Z with (- Z.of_nat (Z.to_nat level))%Z by lia.
  rewrite slice_to_neg by lia.
  destruct module as [[|c m]|]; simpl; by rewrite ?app_nil_r.
Qed.

(** C2, as stated, fails: a caller whose first segment spells the
    sentinel gets the sentinel back from a relative import that is in
    range. *)
Lemma resolve_relative_import_sentinel_in_range :
  ~ (resolve_relative_import [lit "<invalid>"; lit "a"] 1 None = invalid
     <-> (1 > Z.of_nat (length [lit "<invalid>"; lit "a"]))%Z).
Proof.
  intros [Hi _].
  assert (1 > Z.of_nat (length [lit "<invalid>"; lit "a"]))%Z as Hlt
    by (apply Hi; vm_compute; reflexivity).
  vm_compute in Hlt. discriminate.
Qed.

(** C2 (amended): for [level >= 1], [resolve_relative_import] returns the
    sentinel [<invalid>] whenever [level] exceeds the number of caller
    segments, and otherwise the dot-join of the caller parts without their
    last [level] segments followed by the segments of the module suffix
    when one is present; if no caller segment and no module suffix contains
    the character [<], the sentinel is returned exactly when [level]
    exceeds the number of caller segments. The function is total: no
    operation in it can raise. *)
Theorem resolve_relative_import_spec caller_parts level module :
  (1 <= level)%Z ->
  ((level > Z.of_nat (length caller_parts))%Z ->
     resolve_relative_import caller_parts level module = invalid)
  /\ ((level <= Z.of_nat (length caller_parts))%Z ->
        resolve_relative_import caller_parts level module
        = PyStr.join (lit ".")
            (take (length caller_parts - Z.to_nat level) caller_parts
               ++ suffix_segments module))
  /\ ((forall w, w ∈ caller_parts -> "<"%char ∉ w) ->
      (forall m, module = Some m -> "<"%char ∉ m) ->
      (resolve_relative_import caller_parts level module = invalid
       <-> (level > Z.of_nat (length caller_parts))%Z)).
Proof.
  intros Hl. split; [|split].
  - apply resolve_relative_import_underflow.
  - intros ?. by apply resolve_relative_import_in_range.
  - intros Hparts Hmod. split; [|apply resolve_relative_import_underflow].
    intros Hinv.
    destruct (decide (level > Z.of_nat (length caller_parts))%Z) as [|Hle];
      [done|].
    exfalso. rewrite resolve_relative_import_in_range in Hinv by lia.
    assert ("<"%char ∈ invalid) as Hin by (vm_compute; left).
    rewrite <- Hinv in Hin.
    apply join_chars in Hin as [Hin|(w & Hw & Hin)].
    { vm_compute in Hin. apply list_elem_of_singleton in Hin. discriminate. }
    apply elem_of_app in Hw as [Hw|Hw].
    + apply (Hparts w); [|done].
      by apply (subseteq_take (length caller_parts - Z.to_nat level)).
    + destruct module as [[|c m]|]; simpl in Hw;
        try by apply elem_of_nil in Hw.
      apply (Hmod (c :: m) eq_refl). eapply split_chars; eauto.
Qed.

Lemma resolve_relative_import_spec_witness :
  resolve_relative_import [lit "a"; lit "b"; lit "c"] 1 (Some (lit "d.e"))
  = lit "a.b.d.e".
Proof.
  pose proof (resolve_relative_import_spec
                [lit "a"; lit "b"; lit "c"] 1 (Some (lit "d.e"))
                ltac:(lia)) as (_ & Hin & _).
  rewrite Hin; [reflexivity | vm_compute; discriminate].
Defined.

(** ** Query Engine: modules without internal dependencies *)

(** C4: a module is in the [nodeps] result iff it is a known module and no
    edge leaves it towards a known module; that is, the result is the
    module set minus the callers of edges into the module set. *)
Theorem nodeps_spec (all_modules : gset str) (all_imports : list (str * str))
    (M : str) :
  M ∈ nodeps all_modules all_imports
  <-> M ∈ all_modules
      /\ ~ exists target, (M, target) ∈ all_imports /\ target ∈ all_modules.
Proof.
  unfold nodeps, has_deps. rewrite elem_of_difference, elem_of_list_to_set.
  apply and_iff_compat_l, not_iff_compat.
  rewrite list_elem_of_In, in_map_iff. split.
  - intros ([c t] & <- & Hin). apply filter_In in Hin as [Hin Ht].
    apply bool_decide_eq_true in Ht. exists t.
    split; [by apply list_elem_of_In | done].
  - intros (t & Hin & Ht). exists (M, t). split; [done|].
    apply filter_In. split; [by apply list_elem_of_In|].
    by apply bool_decide_eq_true.
Qed.

(** ** Import Extractor: absolute [from X import a, b] *)

(** refutes [H : c ∈ l] for a character and a string that are both
    literals *)
Ltac not_in_lit H :=
  apply list_elem_of_In in H; vm_compute in H; intuition discriminate.

Section JoinFacts.
Import PyStr.

Lemma join_cons sep w l :
  l <> [] -> join sep (w :: l) = w ++ sep ++ join sep l.
Proof. by destruct l. Qed.

Lemma join_snoc sep l w :
  l <> [] -> join sep (l ++ [w]) = join sep l ++ sep ++ w.
Proof.
  induction l as [|x l IH]; [done|]. intros _.
  destruct l as [|y l]; [done|].
  change ((x :: y :: l) ++ [w]) with (x :: ((y :: l) ++ [w])).
  rewrite !join_cons by done. rewrite IH by done.
  by rewrite <- !app_assoc.
Qed.

(** Joining the segments of a split with another character replaces the
    separator by that character. *)
Lemma join_split_map a b s :
  join [b] (split a s) = map (fun c => if bool_decide (c = a) then b else c) s.
Proof.
  induction s as [|c s IH]; [done|]. simpl.
  pose proof (split_nonempty a s) as Hne.
  case_bool_decide.
  - rewrite join_cons by done. simpl. by rewrite IH.
  - rewrite <- IH. destruct (split a s) as [|w ws]; [done|].
    by destruct ws.
Qed.

Lemma seg_ok_last b : seg_ok b -> last b <> Some posixpath.sep.
Proof.
  intros [_ Hs] Hl. apply Hs. apply last_Some in Hl as [l' ->].
  apply elem_of_app. right. left.
Qed.

Lemma endswith_sep_false p :
  last p <> Some posixpath.sep -> endswith p [posixpath.sep] = false.
Proof.
  intros Hl. apply not_true_is_false. intros E.
  apply endswith_true in E as [t ->]. apply Hl. by rewrite last_snoc.
Qed.

Lemma startswith_sep_false b :
  seg_ok b -> startswith b [posixpath.sep] = false.
Proof.
  intros [_ Hs]. apply not_true_is_false. intros E.
  apply startswith_true in E as [t ->]. apply Hs. left.
Qed.

Lemma join_step_ok path b :
  path <> [] -> last path <> Some posixpath.sep -> seg_ok b ->
  posixpath.join_step path b = path ++ [posixpath.sep] ++ b.
Proof.
  intros Hp Hl Hb. unfold posixpath.join_step.
  rewrite startswith_sep_false by done.
  rewrite endswith_sep_false by done.
  by destruct path.
Qed.

(** On clean components [posixpath.join] is the join with slashes. *)
Lemma posix_join_ok path comps :
  path <> [] -> last path <> Some posixpath.sep -> Forall seg_ok comps ->
  posixpath.join path comps = join [posixpath.sep] (path :: comps).
Proof.
  unfold posixpath.join. intros Hp Hl Hc. revert path Hp Hl.
  induction Hc as [|b comps Hb Hc IH]; intros path Hp Hl; [done|].
  simpl fold_left. rewrite join_step_ok by done.
  rewrite IH.
  - destruct comps as [|b' comps']; simpl; by rewrite <- ?app_assoc.
  - by destruct path.
  - rewrite app_assoc, last_app.
    destruct (last b) eqn:E.
    + intros [= ->]. by apply (seg_ok_last b).
    + destruct Hb as [Hb _]. by apply last_None in E.
Qed.

End JoinFacts.

Lemma get_module_name_truthy cwd root file_path m :
  get_module_name cwd root file_path = Some m -> PyStr.truthy m = true.
Proof.
  unfold get_module_name. destruct (_ || _); [done|].
  destruct (posixpath.relpath _ _ _); [|done].
  destruct (PyStr.startswith _ _); [done|].
  intros [= <-]. apply truthy_true. by destruct (PyStr.last_item _).
Qed.

(** C1: an absolute [from X import a, b] in a parsed file contributes one
    edge per imported name, in order, each from the caller module; the
    target of a name is [X.name] when [isfile] holds of the module path
    [join(root, *X.split('.'), name + '.py')] or of the package path
    [join(root, *X.split('.'), name, '__init__.py')], and [X] otherwise.
    For a root without trailing slash and slash-free, non-empty segments
    these paths read [root/X-as-path/name.py] and
    [root/X-as-path/name/__init__.py]. *)
Theorem analyze_imports_from_absolute
    (cwd : str) (isfile : str -> bool)
    (parse_file : str -> option (list ast_node))
    (root file_path caller_module X : str) (names : list alias)
    (pre post : list ast_node) :
  get_module_name cwd root file_path = Some caller_module ->
  parse_file file_path = Some (pre ++ ImportFrom (Some X) names 0 :: post) ->
  X <> [] ->
  let caller_parts := PyStr.split "."%char caller_module in
  let target (name : str) :=
    if isfile (posixpath.join root
                 (PyStr.split "."%char X ++ [name ++ lit ".py"]))
       || isfile (posixpath.join root
                    (PyStr.split "."%char X ++ [name; lit "__init__.py"]))
    then X ++ lit "." ++ name else X in
  analyze_imports cwd isfile parse_file root file_path
  = flat_map (node_edges isfile root caller_module caller_parts) pre
      ++ map (fun a => (caller_module, target (alias_name a))) names
      ++ flat_map (node_edges isfile root caller_module caller_parts) post
  /\ forall name,
       root <> [] -> last root <> Some posixpath.sep ->
       Forall seg_ok (PyStr.split "."%char X) -> seg_ok name ->
       posixpath.join root (PyStr.split "."%char X ++ [name ++ lit ".py"])
       = root ++ lit "/" ++ as_path X ++ lit "/" ++ name ++ lit ".py"
       /\ posixpath.join root
            (PyStr.split "."%char X ++ [name; lit "__init__.py"])
          = root ++ lit "/" ++ as_path X ++ lit "/" ++ name
              ++ lit "/__init__.py".
Proof.
  intros Hm Hp HX caller_parts target. split.
  - unfold analyze_imports. rewrite Hm, Hp.
    rewrite (get_module_name_truthy _ _ _ _ Hm). simpl negb. cbv iota.
    rewrite flat_map_app. simpl flat_map. f_equal.
    f_equal. destruct X; [done|]. reflexivity.
  - intros name Hr Hl HXs Hn.
    assert (seg_ok (name ++ lit ".py")) as Hn1.
    { destruct Hn as [Hn Hs]. split; [by destruct name|].
      rewrite elem_of_app. intros [?|Hin]; [done|]. by not_in_lit Hin. }
    assert (seg_ok (lit "__init__.py")) as Hi.
    { split; [done|]. intros Hin. by not_in_lit Hin. }
    pose proof (split_nonempty "."%char X) as Hne.
    split.
    + rewrite posix_join_ok; [|done|done|].
      2:{ apply Forall_app. split; [done|]. by constructor. }
      rewrite join_cons by (by destruct (PyStr.split "."%char X)).
      rewrite join_snoc by done. unfold as_path.
      rewrite <- (join_split_map "."%char posixpath.sep X).
      reflexivity.
    + rewrite posix_join_ok; [|done|done|].
      2:{ apply Forall_app. split; [done|].
          constructor; [done|]. by constructor. }
      rewrite join_cons by (by destruct (PyStr.split "."%char X)).
      replace (PyStr.split "."%char X ++ [name; lit "__init__.py"])
        with ((PyStr.split "."%char X ++ [name]) ++ [lit "__init__.py"])
        by (by rewrite <- app_assoc).
      rewrite join_snoc by (by destruct (PyStr.split "."%char X)).
      rewrite join_snoc by done. unfold as_path.
      rewrite <- (join_split_map "."%char posixpath.sep X).
      rewrite <- !app_assoc. reflexivity.
Qed.

Lemma analyze_imports_from_absolute_witness :
  analyze_imports (lit "/")
    (fun p => bool_decide (p = lit "/r/pkg/sub/a.py"))
    (fun _ => Some [OtherNode;
                    ImportFrom (Some (lit "pkg.sub"))
                      [{| alias_name := lit "a" |}; {| alias_name := lit "b" |}]
                      0;
                    Import [{| alias_name := lit "os" |}]])
    (lit "/r") (lit "/r/m.py")
  = [(lit "r.m", lit "pkg.sub.a"); (lit "r.m", lit "pkg.sub");
     (lit "r.m", lit "os")].
Proof.
  destruct (analyze_imports_from_absolute (lit "/")
              (fun p => bool_decide (p = lit "/r/pkg/sub/a.py"))
              (fun _ => Some [OtherNode;
                              ImportFrom (Some (lit "pkg.sub"))
                                [{| alias_name := lit "a" |};
                                 {| alias_name := lit "b" |}] 0;
                              Import [{| alias_name := lit "os" |}]])
              (lit "/r") (lit "/r/m.py") (lit "r.m") (lit "pkg.sub")
              [{| alias_name := lit "a" |}; {| alias_name := lit "b" |}]
              [OtherNode] [Import [{| alias_name := lit "os" |}]])
    as [E _].
  - vm_compute. reflexivity.
  - reflexivity.
  - discriminate.
  - rewrite E. vm_compute. reflexivity.
Defined.

(** ** Query Engine: encapsulated directories *)

Section Encapsulation.
Variable cwd : str.
Variable walk : str -> list (str * list str).
Variable resolve : str -> list str.
Variables (all_imports : list (str * str)) (module_to_path : gmap str str).
Variables (root_dir dirpath : str).

Local Abbreviation local_of :=
  (Encapsulated.local_of cwd module_to_path root_dir dirpath).
Local Abbreviation local_module :=
  (Encapsulated.local_module cwd module_to_path root_dir dirpath).

Lemma local_of_Some filename module :
  local_of filename = Some module
  <-> PyStr.endswith filename (lit ".py") = true
      /\ get_module_name cwd root_dir (posixpath.join dirpath [filename])
         = Some module
      /\ is_Some (module_to_path !! module).
Proof.
  unfold Encapsulated.local_of. destruct (PyStr.endswith _ _).
  2:{ split; [done | by intros [? _]]. }
  destruct (get_module_name _ _ _) as [m|].
  2:{ split; [done | by intros (_ & ? & _)]. }
  case_bool_decide as Hk.
  - split; [by intros [= <-] | by intros (_ & [= <-] & _)].
  - split; [done | by intros (_ & [= <-] & ?)].
Qed.

Lemma local_module_omap filenames module :
  local_module filenames module <-> module ∈ omap local_of filenames.
Proof.
  rewrite list_elem_of_omap. unfold Encapsulated.local_module.
  split; intros (f & Hf & Hl); exists f; split; try done;
    by apply local_of_Some.
Qed.

Lemma dir_scan_acc filenames lm lo :
  fold_left (fun '(local_modules, local_outside_deps) filename =>
    if negb (PyStr.endswith filename (lit ".py")) then
      (local_modules, local_outside_deps)
    else
      let file_path := posixpath.join dirpath [filename] in
      match get_module_name cwd root_dir file_path with
      | Some module =>
          if negb (PyStr.truthy module)
             || negb (bool_decide (is_Some (module_to_path !! module)))
          then (local_modules, local_outside_deps)
          else (local_modules ++ [module],
                local_outside_deps
                  ++ outside_deps resolve (resolve dirpath) module
                       all_imports module_to_path)
      | None => (local_modules, local_outside_deps)
      end) filenames (lm, lo)
  = (lm ++ omap local_of filenames,
     lo ++ flat_map (fun module =>
               outside_deps resolve (resolve dirpath) module
                 all_imports module_to_path)
             (omap local_of filenames)).
Proof.
  revert lm lo. induction filenames as [|f fs IH]; intros lm lo.
  { simpl. by rewrite !app_nil_r. }
  cbn [fold_left].
  match goal with
  | |- fold_left _ fs ?x = _ =>
      assert (x = match local_of f with
                  | Some m =>
                      (lm ++ [m],
                       lo ++ outside_deps resolve (resolve dirpath) m
                               all_imports module_to_path)
                  | None => (lm, lo)
                  end) as ->
  end.
  { unfold Encapsulated.local_of.
    destruct (PyStr.endswith f (lit ".py")); [|done].
    cbn [negb]. cbv zeta.
    destruct (get_module_name _ _ _) as [m|] eqn:Hm; [|done].
    rewrite (get_module_name_truthy _ _ _ _ Hm). cbn [negb orb].
    by case_bool_decide. }
  change (omap local_of (f :: fs))
    with (match local_of f with
          | Some m => m :: omap local_of fs
          | None => omap local_of fs
          end).
  destruct (local_of f) as [m|]; rewrite IH; [|done].
  cbn [flat_map]. by rewrite <- !app_assoc.
Qed.

Lemma dir_scan_eq filenames :
  dir_scan cwd resolve root_dir dirpath filenames all_imports module_to_path
  = (omap local_of filenames,
     flat_map (fun module =>
                 outside_deps resolve (resolve dirpath) module
                   all_imports module_to_path)
              (omap local_of filenames)).
Proof. unfold dir_scan. by rewrite dir_scan_acc. Qed.

Lemma outside_deps_nil module :
  outside_deps resolve (resolve dirpath) module all_imports module_to_path = []
  <-> forall imported p,
        (module, imported) ∈ all_imports ->
        module_to_path !! imported = Some p ->
        relative_to (resolve p) (resolve dirpath) = true.
Proof.
  unfold outside_deps. induction all_imports as [|[c t] l IH]; simpl.
  { split; [|done]. intros _ ?? Hin. by apply elem_of_nil in Hin. }
  split.
  - intros E. apply app_nil in E as [E1 E2].
    intros imported p Hin Hp. apply elem_of_cons in Hin as [[= <- <-]|Hin].
    + rewrite bool_decide_false in E1 by (by intros Hc). rewrite Hp in E1.
      by destruct (relative_to _ _).
    + by apply (proj1 IH E2 imported p).
  - intros Hall. apply app_nil. split.
    + case_bool_decide as Hc; [done|].
      assert (c = module) as -> by (by destruct (decide (c = module))).
      destruct (module_to_path !! t) as [p|] eqn:Hp; [|done].
      rewrite (Hall t p); [done | left | done].
    + apply IH. intros imported p Hin. apply Hall. by right.
Qed.

(** C8: a visited directory is reported iff it has at least one local
    module (a known module whose source file lies directly in it) and
    every edge from a local module to a target with a known file has that
    file inside the directory's own tree; without local modules it is
    never reported. [encapsulated_dir] lists exactly the directories of
    the visits that report. *)
Theorem dir_reported_iff (filenames : list str) :
  (dir_reported cwd resolve root_dir dirpath filenames all_imports
     module_to_path = true
   <-> (exists module, local_module filenames module)
       /\ forall caller imported p,
            (caller, imported) ∈ all_imports ->
            local_module filenames caller ->
            module_to_path !! imported = Some p ->
            relative_to (resolve p) (resolve dirpath) = true)
  /\ ((~ exists module, local_module filenames module) ->
      dir_reported cwd resolve root_dir dirpath filenames all_imports
        module_to_path = false)
  /\ forall (roots : list str) (d : list str),
       d ∈ encapsulated_dir cwd walk resolve roots all_imports module_to_path
       <-> exists root dir files,
             root ∈ roots /\ (dir, files) ∈ walk root /\ d = resolve dir
             /\ dir_reported cwd resolve root dir files all_imports
                  module_to_path = true.
Proof.
  assert (dir_reported cwd resolve root_dir dirpath filenames all_imports
            module_to_path = true
          <-> (exists module, local_module filenames module)
              /\ forall caller imported p,
                   (caller, imported) ∈ all_imports ->
                   local_module filenames caller ->
                   module_to_path !! imported = Some p ->
                   relative_to (resolve p) (resolve dirpath) = true) as Hiff.
  { unfold dir_reported. rewrite dir_scan_eq.
    rewrite andb_true_iff, negb_true_iff, truthy_true, truthy_false.
    assert (omap local_of filenames <> []
            <-> exists module, local_module filenames module) as ->.
    { split.
      + intros Hne. destruct (omap local_of filenames) as [|m l] eqn:E;
          [done|]. exists m. apply local_module_omap. rewrite E. left.
      + intros [m Hm%local_module_omap] E. rewrite E in Hm.
        by apply elem_of_nil in Hm. }
    apply and_iff_compat_l.
    split.
    + intros E caller imported p Hin Hl%local_module_omap Hp.
      assert (outside_deps resolve (resolve dirpath) caller all_imports
                module_to_path = []) as E'.
      { apply list_elem_of_In in Hl.
        destruct (outside_deps _ _ caller _ _) as [|x xs] eqn:Ex; [done|].
        assert (In x []) as []. rewrite <- E. apply in_flat_map.
        exists caller. split; [done|]. rewrite Ex. by left. }
      by apply (proj1 (outside_deps_nil caller) E' imported p).
    + intros Hall.
      destruct (flat_map _ _) as [|x xs] eqn:Ex; [done|].
      assert (In x (x :: xs)) as Hx by (by left).
      rewrite <- Ex in Hx. apply in_flat_map in Hx as (m & Hm & Hx).
      apply list_elem_of_In, local_module_omap in Hm.
      rewrite (proj2 (outside_deps_nil m)) in Hx; [done|].
      intros imported p Hin Hp. by apply (Hall m imported p). }
  split; [exact Hiff|]. split.
  - intros Hno. apply not_true_is_false. intros Hr.
    apply Hiff in Hr as [Hex _]. by apply Hno.
  - intros roots d. unfold encapsulated_dir.
    rewrite list_elem_of_In, in_flat_map. split.
    + intros (root & Hroot & Hd). apply in_flat_map in Hd as ([dir files] & Hw & Hd).
      destruct (dir_reported _ _ root dir files _ _) eqn:Hr; [|done].
      destruct Hd as [<-|[]]. exists root, dir, files.
      by rewrite !list_elem_of_In.
    + intros (root & dir & files & Hroot & Hw & -> & Hr).
      exists root. split; [by apply list_elem_of_In|].
      apply in_flat_map. exists (dir, files).
      split; [by apply list_elem_of_In|]. rewrite Hr. by left.
Qed.

End Encapsulation.

(** ** Module Resolver: normal form of absolute paths *)

Section PathFacts.
Import PyStr.
Local Abbreviation sep := posixpath.sep.

Lemma split_cons_sep s : split sep (sep :: s) = [] :: split sep s.
Proof. reflexivity. Qed.

Lemma split_no_sep c s w : w ∈ split c s -> c ∉ w.
Proof.
  revert w. induction s as [|a s IH]; simpl; intros w Hw.
  - apply list_elem_of_singleton in Hw. subst. apply not_elem_of_nil.
  - case_bool_decide as Ha.
    + apply elem_of_cons in Hw as [->|Hw]; [apply not_elem_of_nil | eauto].
    + destruct (split c s) as [|w0 ws] eqn:E.
      * apply list_elem_of_singleton in Hw. subst.
        intros Hin. apply list_elem_of_singleton in Hin. by subst.
      * apply elem_of_cons in Hw as [->|Hw].
        -- intros Hin. apply elem_of_cons in Hin as [->|Hin]; [done|].
           revert Hin. apply IH. left.
        -- apply IH. by right.
Qed.

Lemma split_no_sep_id c w : c ∉ w -> split c w = [w].
Proof.
  induction w as [|a w IH]; [done|]. intros Hn. simpl.
  rewrite bool_decide_false by (intros ->; apply Hn; left).
  rewrite IH; [done|]. intros Hin. apply Hn. by right.
Qed.

Lemma split_app_sep c w s : c ∉ w -> split c (w ++ c :: s) = w :: split c s.
Proof.
  induction w as [|a w IH]; intros Hn; simpl.
  - by rewrite bool_decide_true.
  - rewrite bool_decide_false by (intros ->; apply Hn; left).
    rewrite IH; [done|]. intros Hin. apply Hn. by right.
Qed.

(** [split] undoes [join] on separator-free segments. *)
Lemma split_join c l :
  l <> [] -> Forall (fun w => c ∉ w) l -> split c (join [c] l) = l.
Proof.
  intros Hne Hall. induction Hall as [|w l Hw Hall IH]; [done|].
  destruct l as [|w' l'].
  - simpl. by apply split_no_sep_id.
  - rewrite join_cons by done.
    change (w ++ [c] ++ join [c] (w' :: l'))
      with (w ++ c :: join [c] (w' :: l')).
    rewrite split_app_sep by done. by rewrite IH.
Qed.

Lemma clean_seg_ok c : clean c -> seg_ok c.
Proof. intros (? & ? & _). by split. Qed.

Lemma clean_truthy cs : Forall clean cs -> List.filter truthy cs = cs.
Proof.
  induction 1 as [|c cs [Hc _] _ IH]; [done|]. simpl.
  destruct c; [done|]. simpl. by rewrite IH.
Qed.

Lemma norm_step_clean n acc c :
  clean c -> posixpath.norm_step n acc c = acc ++ [c].
Proof.
  intros (H1 & _ & H2 & H3). unfold posixpath.norm_step.
  rewrite (bool_decide_false (c = [])) by done.
  rewrite (bool_decide_false (c = posixpath.curdir)) by done.
  by rewrite (bool_decide_false (c = posixpath.pardir)) by done.
Qed.

Lemma norm_fold_clean_id n cs acc :
  Forall clean cs -> fold_left (posixpath.norm_step n) cs acc = acc ++ cs.
Proof.
  intros Hcs. revert acc.
  induction Hcs as [|c cs Hc _ IH]; intros acc; simpl.
  - by rewrite app_nil_r.
  - rewrite norm_step_clean by done. rewrite IH. by rewrite <- app_assoc.
Qed.

Lemma removelast_Forall {A} (P : A -> Prop) l :
  Forall P l -> Forall P (removelast l).
Proof.
  induction 1 as [|x l Hx Hl IH]; [done|]. simpl.
  destruct l; [constructor|]. by constructor.
Qed.

Lemma norm_step_keeps_clean n acc c :
  n <> 0 -> sep ∉ c -> Forall clean acc ->
  Forall clean (posixpath.norm_step n acc c).
Proof.
  intros Hn Hc Hacc. unfold posixpath.norm_step.
  case_bool_decide as H1; [done|]. case_bool_decide as H2; [done|].
  simpl. case_bool_decide as H3; simpl.
  - rewrite (bool_decide_false (n = 0)) by done. simpl.
    case_bool_decide as H4.
    + exfalso. apply last_Some in H4 as [l' ->].
      apply Forall_app in Hacc as [_ Hp].
      apply Forall_inv in Hp. by destruct Hp as (_ & _ & _ & ?).
    + rewrite andb_false_r. by apply removelast_Forall.
  - apply Forall_app. split; [done|]. by repeat constructor.
Qed.

Lemma norm_fold_keeps_clean n comps acc :
  n <> 0 -> Forall (fun c => sep ∉ c) comps -> Forall clean acc ->
  Forall clean (fold_left (posixpath.norm_step n) comps acc).
Proof.
  intros Hn Hcs. revert acc.
  induction Hcs as [|c cs Hc _ IH]; intros acc Hacc; [done|]. simpl.
  apply IH. by apply norm_step_keeps_clean.
Qed.

Lemma join_clean_head cs t : Forall clean cs -> join [sep] cs <> sep :: t.
Proof.
  intros Hcs E. destruct Hcs as [|c cs (Hc & Hs & _) _]; [done|].
  destruct c as [|a c]; [done|].
  assert (a = sep) as ->.
  { destruct cs; simpl in E; by injection E. }
  apply Hs. left.
Qed.

End PathFacts.

Section NormalForm.
Import PyStr.
Local Abbreviation sep := posixpath.sep.

Lemma clean_no_sep cs : Forall clean cs -> Forall (fun w => sep ∉ w) cs.
Proof. intros Hcs. eapply Forall_impl; [exact Hcs|]. by intros c (_ & ? & _). Qed.

Lemma split_nf n cs :
  Forall clean cs ->
  split sep (nf n cs)
  = replicate n [] ++ match cs with [] => [[]] | _ => cs end.
Proof.
  intros Hcs. induction n as [|n IH].
  - unfold nf. simpl. destruct cs as [|c cs']; [done|].
    apply split_join; [done | by apply clean_no_sep].
  - change (nf (S n) cs) with (sep :: nf n cs).
    rewrite split_cons_sep, IH. done.
Qed.

Lemma filter_truthy_blank n (l : list str) :
  List.filter truthy (replicate n [] ++ l) = List.filter truthy l.
Proof. induction n as [|n IH]; simpl; done. Qed.

Lemma parts_of_nf n cs :
  Forall clean cs -> List.filter truthy (split sep (nf n cs)) = cs.
Proof.
  intros Hcs. rewrite split_nf, filter_truthy_blank by done.
  destruct cs as [|c cs']; [done|]. by apply clean_truthy.
Qed.

Lemma norm_fold_blank k n (l acc : list str) :
  fold_left (posixpath.norm_step k) (replicate n [] ++ l) acc
  = fold_left (posixpath.norm_step k) l acc.
Proof. induction n as [|n IH]; simpl; done. Qed.

Lemma norm_fold_nf k n cs :
  Forall clean cs ->
  fold_left (posixpath.norm_step k) (split sep (nf n cs)) [] = cs.
Proof.
  intros Hcs. rewrite split_nf, norm_fold_blank by done.
  destruct cs as [|c cs']; [done|].
  by rewrite norm_fold_clean_id.
Qed.

Lemma startswith_cons a s p :
  startswith (a :: s) (a :: p) = startswith s p.
Proof.
  unfold startswith. simpl. apply bool_decide_ext.
  split; [by intros [= ->] | by intros ->].
Qed.

Lemma startswith_join_sep cs :
  Forall clean cs -> startswith (join [sep] cs) [sep] = false.
Proof.
  intros Hcs. apply not_true_is_false. intros [t E]%startswith_true.
  by apply (join_clean_head cs t).
Qed.

Lemma initial_slashes_nf n cs :
  n = 1 \/ n = 2 -> Forall clean cs ->
  posixpath.initial_slashes (nf n cs) = n.
Proof.
  intros Hn Hcs. pose proof (startswith_join_sep cs Hcs) as Hj.
  unfold posixpath.initial_slashes, nf.
  destruct Hn as [-> | ->]; simpl replicate; simpl app.
  - rewrite !startswith_cons.
    replace (startswith (join [sep] cs) []) with true by done.
    by rewrite Hj.
  - rewrite !startswith_cons.
    replace (startswith (join [sep] cs) []) with true by done.
    by rewrite Hj.
Qed.

Lemma normpath_nf_id n cs :
  n = 1 \/ n = 2 -> Forall clean cs ->
  posixpath.normpath (nf n cs) = nf n cs.
Proof.
  intros Hn Hcs. unfold posixpath.normpath.
  rewrite initial_slashes_nf, norm_fold_nf by done.
  fold (nf n cs). by destruct Hn as [-> | ->].
Qed.

Lemma isabs_nf n cs : n = 1 \/ n = 2 -> posixpath.isabs (nf n cs) = true.
Proof. by intros [-> | ->]. Qed.

(** [normpath] of an absolute path is in normal form. *)
Lemma normpath_nf q :
  posixpath.isabs q = true ->
  exists n cs,
    (n = 1 \/ n = 2) /\ Forall clean cs /\ posixpath.normpath q = nf n cs.
Proof.
  intros Hq. unfold posixpath.normpath.
  assert (posixpath.initial_slashes q = 1
          \/ posixpath.initial_slashes q = 2) as Hn.
  { unfold posixpath.initial_slashes. unfold posixpath.isabs in Hq.
    rewrite Hq. destruct (_ && _); auto. }
  set (n := posixpath.initial_slashes q) in *.
  exists n, (fold_left (posixpath.norm_step n) (split sep q) []).
  split; [done|]. split.
  - apply norm_fold_keeps_clean; [by destruct Hn as [-> | ->]| |done].
    apply Forall_forall. intros w Hw. by apply split_no_sep in Hw.
  - apply startswith_true in Hq as [t ->]. simpl negb. cbv iota.
    unfold nf. by destruct Hn as [-> | ->].
Qed.

Lemma abspath_arg_isabs cwd p :
  posixpath.isabs cwd = true ->
  posixpath.isabs
    (if posixpath.isabs p then p else posixpath.join cwd [p]) = true.
Proof.
  intros Hc. destruct (posixpath.isabs p) eqn:Hp; [done|].
  unfold posixpath.join. simpl. unfold posixpath.join_step.
  unfold posixpath.isabs in Hp. rewrite Hp.
  apply startswith_true in Hc as [t ->].
  destruct (_ || _); by apply startswith_true; eexists.
Qed.

Lemma abspath_nf cwd p :
  posixpath.isabs cwd = true ->
  exists n cs,
    (n = 1 \/ n = 2) /\ Forall clean cs /\ posixpath.abspath cwd p = nf n cs.
Proof. intros Hc. by apply normpath_nf, abspath_arg_isabs. Qed.

Lemma abspath_idem cwd p :
  posixpath.isabs cwd = true ->
  posixpath.abspath cwd (posixpath.abspath cwd p) = posixpath.abspath cwd p.
Proof.
  intros Hc. destruct (abspath_nf cwd p Hc) as (n & cs & Hn & Hcs & E).
  rewrite E. unfold posixpath.abspath at 1.
  rewrite isabs_nf by done. by apply normpath_nf_id.
Qed.

Lemma parts_abspath cwd p :
  posixpath.isabs cwd = true ->
  posixpath.parts cwd (posixpath.abspath cwd p) = posixpath.parts cwd p.
Proof. intros Hc. unfold posixpath.parts. by rewrite abspath_idem. Qed.

Lemma parts_clean cwd p :
  posixpath.isabs cwd = true -> Forall clean (posixpath.parts cwd p).
Proof.
  intros Hc. destruct (abspath_nf cwd p Hc) as (n & cs & Hn & Hcs & E).
  unfold posixpath.parts. rewrite E. by rewrite parts_of_nf.
Qed.

(** An absolute normalised path is its leading slashes followed by its
    parts joined with slashes. *)
Lemma abspath_parts cwd p :
  posixpath.isabs cwd = true ->
  exists n, (n = 1 \/ n = 2)
            /\ posixpath.abspath cwd p = nf n (posixpath.parts cwd p).
Proof.
  intros Hc. destruct (abspath_nf cwd p Hc) as (n & cs & Hn & Hcs & E).
  exists n. split; [done|]. unfold posixpath.parts. rewrite E.
  by rewrite parts_of_nf.
Qed.

End NormalForm.

(** ** Module Resolver: [relpath] and [get_module_name] *)

Section Resolver.
Import PyStr.
Local Abbreviation sep := posixpath.sep.

Lemma commonprefix_of_prefix l1 r :
  posixpath.commonprefix l1 (l1 ++ r) = l1.
Proof.
  induction l1 as [|x l1 IH]; simpl; [by destruct r|].
  rewrite bool_decide_true by done. by rewrite IH.
Qed.

Lemma commonprefix_length l1 l2 :
  length (posixpath.commonprefix l1 l2) <= length l1.
Proof.
  revert l2. induction l1 as [|x l1 IH]; intros [|y l2]; simpl; try lia.
  case_bool_decide; simpl; [|lia]. specialize (IH l2). lia.
Qed.

Lemma commonprefix_full l1 l2 :
  length (posixpath.commonprefix l1 l2) = length l1 -> l1 `prefix_of` l2.
Proof.
  revert l2. induction l1 as [|x l1 IH]; intros l2 Hl.
  - apply prefix_nil.
  - destruct l2 as [|y l2]; [done|]. simpl in Hl.
    case_bool_decide as Hxy; [|done]. subst y. simpl in Hl.
    apply prefix_cons, IH. lia.
Qed.

Lemma truthy_nf n cs : n = 1 \/ n = 2 -> truthy (nf n cs) = true.
Proof. by intros [-> | ->]. Qed.

Lemma truthy_abspath cwd p :
  posixpath.isabs cwd = true -> truthy (posixpath.abspath cwd p) = true.
Proof.
  intros Hc. destruct (abspath_nf cwd p Hc) as (n & cs & Hn & Hcs & ->).
  by apply truthy_nf.
Qed.

Lemma pardir_seg_ok : seg_ok posixpath.pardir.
Proof. split; [done|]. intros Hin. by not_in_lit Hin. Qed.

(** [relpath] from a start that is above the path *)
Lemma relpath_under cwd path start r :
  posixpath.isabs cwd = true ->
  posixpath.parts cwd path = posixpath.parts cwd start ++ r ->
  posixpath.relpath cwd (posixpath.abspath cwd path)
    (posixpath.abspath cwd start)
  = Some (match r with
          | [] => posixpath.curdir
          | _ => join [sep] r
          end).
Proof.
  intros Hc Hr. unfold posixpath.relpath.
  rewrite truthy_abspath by done. simpl negb. cbv iota zeta.
  rewrite !parts_abspath by done. rewrite Hr.
  rewrite commonprefix_of_prefix, Nat.sub_diag, drop_app_length.
  simpl. destruct r as [|a r']; [done|]. f_equal.
  pose proof (parts_clean cwd path Hc) as Hcl. rewrite Hr in Hcl.
  apply Forall_app in Hcl as [_ Hcl].
  apply Forall_cons in Hcl as [Ha Hcl].
  apply posix_join_ok.
  - by destruct Ha.
  - by apply seg_ok_last, clean_seg_ok.
  - eapply Forall_impl; [exact Hcl|]. apply clean_seg_ok.
Qed.

(** [relpath] from a start that is not above the path climbs first *)
Lemma relpath_outside cwd path start :
  posixpath.isabs cwd = true ->
  ~ posixpath.parts cwd start `prefix_of` posixpath.parts cwd path ->
  exists t,
    posixpath.relpath cwd (posixpath.abspath cwd path)
      (posixpath.abspath cwd start)
    = Some (posixpath.pardir ++ t).
Proof.
  intros Hc Hnp. unfold posixpath.relpath.
  rewrite truthy_abspath by done. simpl negb. cbv iota zeta.
  rewrite !parts_abspath by done.
  set (sl := posixpath.parts cwd start) in *.
  set (pl := posixpath.parts cwd path) in *.
  pose proof (commonprefix_length sl pl) as Hle.
  assert (length (posixpath.commonprefix sl pl) <> length sl) as Hne.
  { intros Hl. by apply Hnp, commonprefix_full. }
  destruct (length sl - length (posixpath.commonprefix sl pl)) as [|k] eqn:Hk;
    [lia|].
  cbn [replicate app].
  rewrite posix_join_ok.
  - destruct (replicate k posixpath.pardir ++ _) as [|b l] eqn:El.
    + exists []. by rewrite app_nil_r.
    + rewrite join_cons by done. by eexists.
  - done.
  - by apply seg_ok_last, pardir_seg_ok.
  - apply Forall_app. split.
    + apply Forall_replicate, pardir_seg_ok.
    + apply Forall_drop. eapply Forall_impl; [apply parts_clean; done|].
      apply clean_seg_ok.
Qed.

Lemma last_item_split_nf n cs :
  Forall clean cs ->
  last_item (split sep (nf n cs)) = default [] (last cs).
Proof.
  intros Hcs. rewrite split_nf by done. unfold last_item.
  destruct cs as [|c cs'].
  - by rewrite last_app.
  - rewrite last_app. destruct (last (c :: cs')) eqn:E; [done|].
    by apply last_None in E.
Qed.

(** the name of the root directory: its last component *)
Lemma root_name_parts cwd root :
  posixpath.isabs cwd = true ->
  last_item (split sep (posixpath.abspath cwd root))
  = default [] (last (posixpath.parts cwd root)).
Proof.
  intros Hc. destruct (abspath_nf cwd root Hc) as (n & cs & Hn & Hcs & E).
  unfold posixpath.parts. rewrite E.
  by rewrite last_item_split_nf, parts_of_nf.
Qed.

(** What [get_module_name] does on an accepted pair. *)
Lemma get_module_name_accepts cwd root file_path m :
  posixpath.isabs cwd = true ->
  get_module_name cwd root file_path = Some m ->
  exists r,
    posixpath.parts cwd file_path = posixpath.parts cwd root ++ r
    /\ endswith (posixpath.abspath cwd file_path) (lit ".py") = true
    /\ m = default [] (last (posixpath.parts cwd root))
           ++ lit "."
           ++ join (lit ".")
                (split sep
                   (slice_to (match r with
                              | [] => posixpath.curdir
                              | _ => join [sep] r
                              end) (-3))).
Proof.
  intros Hc. unfold get_module_name.
  destruct (endswith _ _) eqn:He; [|done]. simpl.
  destruct (startswith _ _); [|done]. simpl.
  destruct (decide (posixpath.parts cwd root
                      `prefix_of` posixpath.parts cwd file_path))
    as [[r Hr]|Hnp].
  - rewrite (relpath_under _ _ _ r Hc Hr).
    destruct (startswith _ (lit "..")); [done|]. intros [= <-].
    exists r. split; [done|]. split; [done|].
    by rewrite root_name_parts.
  - destruct (relpath_outside _ _ _ Hc Hnp) as [t ->].
    rewrite (proj2 (startswith_true _ _)); [done | by eexists].
Qed.

(** A path that is not below the root is rejected. *)
Lemma get_module_name_outside cwd root file_path :
  posixpath.isabs cwd = true ->
  ~ posixpath.parts cwd root `prefix_of` posixpath.parts cwd file_path ->
  get_module_name cwd root file_path = None.
Proof.
  intros Hc Hnp. destruct (get_module_name cwd root file_path) eqn:E; [|done].
  apply get_module_name_accepts in E as (r & Hr & _); [|done].
  exfalso. apply Hnp. by exists r.
Qed.

End Resolver.

Section ResolverSpec.
Import PyStr.
Local Abbreviation sep := posixpath.sep.

Lemma endswith_last_seg (Y c t p : str) :
  Y ++ c = t ++ p -> last Y = Some sep -> sep ∉ p ->
  exists t', c = t' ++ p.
Proof.
  intros E HY Hp. apply app_eq_app in E as [l [[E1 E2]|[E1 E2]]].
  - destruct (decide (l = [])) as [->|Hl].
    + exists []. by rewrite E2.
    + exfalso. apply Hp. rewrite E2. apply elem_of_app. left.
      rewrite E1 in HY. rewrite last_app in HY.
      destruct (last l) as [x|] eqn:El; [|by apply last_None in El].
      injection HY as ->. apply last_Some in El as [l' ->].
      apply elem_of_app. right. left.
  - by exists l.
Qed.

Lemma join_snoc_last l c :
  exists Y, join [sep] (l ++ [c]) = Y ++ c /\ (Y = [] \/ last Y = Some sep).
Proof.
  destruct l as [|x l'].
  - exists []. split; [done | by left].
  - exists (join [sep] (x :: l') ++ [sep]). split.
    + rewrite join_snoc by done. by rewrite <- app_assoc.
    + right. by rewrite last_snoc.
Qed.

Lemma nf_snoc_last n l c :
  n = 1 \/ n = 2 ->
  exists Y, nf n (l ++ [c]) = Y ++ c /\ last Y = Some sep.
Proof.
  intros Hn. destruct (join_snoc_last l c) as (Y & E & HY).
  exists (replicate n sep ++ Y). unfold nf. rewrite E. split.
  - by rewrite <- app_assoc.
  - destruct HY as [-> | HY].
    + rewrite app_nil_r. by destruct Hn as [-> | ->].
    + rewrite last_app, HY. done.
Qed.

Lemma slice_to_ext (stem : str) : slice_to (stem ++ lit ".py") (-3) = stem.
Proof.
  change (-3)%Z with (- Z.of_nat 3)%Z. rewrite slice_to_neg by lia.
  rewrite length_app.
  replace (length stem + length (lit ".py") - 3) with (length stem)
    by (change (length (lit ".py")) with 3; lia).
  by rewrite take_app_length.
Qed.

(** The module name of an accepted file that is not the root itself. *)
Lemma get_module_name_stem cwd root file_path m :
  posixpath.isabs cwd = true ->
  get_module_name cwd root file_path = Some m ->
  posixpath.parts cwd file_path <> posixpath.parts cwd root ->
  exists rel stem,
    rel <> [] /\ Forall clean rel
    /\ posixpath.parts cwd file_path = posixpath.parts cwd root ++ rel
    /\ join [sep] rel = stem ++ lit ".py"
    /\ m = default [] (last (posixpath.parts cwd root))
           ++ lit "." ++ dotted stem.
Proof.
  intros Hc Hm Hne.
  destruct (get_module_name_accepts _ _ _ _ Hc Hm) as (r & Hr & He & ->).
  assert (r <> []) as Hrne.
  { intros ->. by rewrite app_nil_r in Hr. }
  pose proof (parts_clean cwd file_path Hc) as Hcl. rewrite Hr in Hcl.
  apply Forall_app in Hcl as [_ Hcl].
  destruct (exists_last Hrne) as (r' & c & ->).
  destruct (abspath_parts cwd file_path Hc) as (n & Hn & EF).
  rewrite Hr, app_assoc in EF.
  destruct (nf_snoc_last n (posixpath.parts cwd root ++ r') c Hn)
    as (Y & EY & HY).
  apply endswith_true in He as [t Ht].
  destruct (endswith_last_seg Y c t (lit ".py")) as [t' ->].
  { by rewrite <- EY, <- EF. }
  { done. }
  { intros Hin. by not_in_lit Hin. }
  destruct (join_snoc_last r' (t' ++ lit ".py")) as (Y' & EY' & _).
  exists (r' ++ [t' ++ lit ".py"]), (Y' ++ t').
  split; [by destruct r'|]. split; [done|]. split; [done|].
  split; [by rewrite EY', <- app_assoc|].
  do 2 f_equal.
  replace (match r' ++ [t' ++ lit ".py"] with
           | [] => posixpath.curdir
           | _ => join [sep] (r' ++ [t' ++ lit ".py"])
           end) with (join [sep] (r' ++ [t' ++ lit ".py"]))
    by (by destruct r').
  rewrite EY', app_assoc, slice_to_ext.
  apply (join_split_map sep "."%char).
Qed.

Lemma dotted_clean c : sep ∉ c -> dotted c = c.
Proof.
  induction c as [|a c IH]; [done|]. intros Hn. simpl.
  rewrite bool_decide_false by (intros ->; apply Hn; left).
  rewrite IH; [done|]. intros Hin. apply Hn. by right.
Qed.

Lemma dotted_app s t : dotted (s ++ t) = dotted s ++ dotted t.
Proof. apply map_app. Qed.

Lemma dotted_inj s t :
  "."%char ∉ s -> "."%char ∉ t -> dotted s = dotted t -> s = t.
Proof.
  revert t. induction s as [|a s IH]; intros [|b t] Hs Ht E; try done.
  simpl in E. injection E as Ehd Etl.
  assert (a = b) as ->.
  { repeat case_bool_decide; subst; try done.
    - exfalso. apply Ht. left.
    - exfalso. apply Hs. left. }
  f_equal. apply IH; [| |done].
  - intros Hin. apply Hs. by right.
  - intros Hin. apply Ht. by right.
Qed.

End ResolverSpec.

(** C7: for an accepted (root, file) pair, the file not being the root
    itself, the module name is the root directory's own name, a dot, and
    the root-relative path of the file with [.py] stripped and every path
    separator replaced by a dot; a file [pkg/__init__.py] keeps its
    [__init__] segment and yields a name ending in [pkg.__init__]. *)
Theorem get_module_name_spec (cwd root file_path m : str) :
  posixpath.isabs cwd = true ->
  get_module_name cwd root file_path = Some m ->
  posixpath.parts cwd file_path <> posixpath.parts cwd root ->
  exists rel stem,
    posixpath.parts cwd file_path = posixpath.parts cwd root ++ rel
    /\ PyStr.join [posixpath.sep] rel = stem ++ lit ".py"
    /\ m = default [] (last (posixpath.parts cwd root))
           ++ lit "." ++ dotted stem
    /\ forall dirs pkg,
         rel = dirs ++ [pkg; lit "__init__.py"] ->
         exists t, m = t ++ pkg ++ lit ".__init__".
Proof.
  intros Hc Hm Hne.
  destruct (get_module_name_stem _ _ _ _ Hc Hm Hne)
    as (rel & stem & Hrne & Hcl & Hr & Hj & ->).
  exists rel, stem. do 3 (split; [done|]).
  intros dirs pkg ->.
  replace (dirs ++ [pkg; lit "__init__.py"])
    with ((dirs ++ [pkg]) ++ [lit "__init__.py"]) in Hj, Hcl
    by (by rewrite <- app_assoc).
  rewrite join_snoc in Hj by (by destruct dirs).
  destruct (join_snoc_last dirs pkg) as (Y & EY & _). rewrite EY in Hj.
  assert (stem = Y ++ pkg ++ lit "/__init__") as ->.
  { apply (app_inv_tail (lit ".py")). rewrite <- Hj.
    by rewrite <- !app_assoc. }
  rewrite !dotted_app.
  apply Forall_app in Hcl as [Hcl _]. apply Forall_app in Hcl as [_ Hcl].
  apply Forall_inv in Hcl. destruct Hcl as (_ & Hsep & _).
  rewrite (dotted_clean pkg) by done.
  eexists. rewrite !app_assoc. reflexivity.
Qed.

Lemma get_module_name_spec_witness :
  exists t, lit "pkgA.pkg.__init__" = t ++ lit "pkg" ++ lit ".__init__".
Proof.
  destruct (get_module_name_spec (lit "/") (lit "/x/pkgA")
              (lit "/x/pkgA/pkg/__init__.py") (lit "pkgA.pkg.__init__"))
    as (rel & stem & Hr & _ & _ & Hinit).
  - reflexivity.
  - vm_compute. reflexivity.
  - vm_compute. discriminate.
  - apply (Hinit [] (lit "pkg")).
    vm_compute in Hr. injection Hr as <-. reflexivity.
Defined.

(** C10: a file path that is not located under the root is given no
    module name, also when the root path is a string prefix of the file
    path (root [/x/pkgA], file [/x/pkgAB/m.py]): the relative path then
    starts with [..] and the guard rejects it. *)
Theorem get_module_name_rejects_outside (cwd root file_path : str) :
  posixpath.isabs cwd = true ->
  ~ under_root cwd root file_path ->
  get_module_name cwd root file_path = None
  /\ exists t,
       posixpath.relpath cwd (posixpath.abspath cwd file_path)
         (posixpath.abspath cwd root)
       = Some (lit ".." ++ t).
Proof.
  intros Hc Hnu. split.
  - by apply get_module_name_outside.
  - by apply relpath_outside.
Qed.

Lemma get_module_name_rejects_outside_witness :
  PyStr.startswith (posixpath.abspath (lit "/") (lit "/x/pkgAB/m.py"))
    (posixpath.abspath (lit "/") (lit "/x/pkgA")) = true
  /\ get_module_name (lit "/") (lit "/x/pkgA") (lit "/x/pkgAB/m.py") = None.
Proof.
  split; [vm_compute; reflexivity|].
  apply (get_module_name_rejects_outside
           (lit "/") (lit "/x/pkgA") (lit "/x/pkgAB/m.py")).
  - reflexivity.
  - unfold under_root. intros [k Hk]. vm_compute in Hk. discriminate.
Defined.

(** C6, as stated, fails: a dot in a file name and a path separator give
    the same module name. *)
Lemma get_module_name_not_injective :
  ~ (forall cwd root f1 f2 m,
       get_module_name cwd root f1 = Some m ->
       get_module_name cwd root f2 = Some m ->
       posixpath.abspath cwd f1 = posixpath.abspath cwd f2).
Proof.
  intros Hinj.
  specialize (Hinj (lit "/") (lit "/r") (lit "/r/a.b.py") (lit "/r/a/b.py")
                (lit "r.a.b")).
  assert (posixpath.abspath (lit "/") (lit "/r/a.b.py")
          = posixpath.abspath (lit "/") (lit "/r/a/b.py")) as E
    by (apply Hinj; vm_compute; reflexivity).
  vm_compute in E. discriminate.
Qed.

(** C6 (amended): within one root, [get_module_name] is injective on the
    accepted files, other than the root path itself, whose root-relative
    path has no dot besides the one of its [.py] extension: two such files
    with the same module name have the same path components. *)
Theorem get_module_name_injective (cwd root f1 f2 m : str) :
  posixpath.isabs cwd = true ->
  get_module_name cwd root f1 = Some m ->
  get_module_name cwd root f2 = Some m ->
  posixpath.parts cwd f1 <> posixpath.parts cwd root ->
  posixpath.parts cwd f2 <> posixpath.parts cwd root ->
  "."%char ∉ stem_of cwd root f1 ->
  "."%char ∉ stem_of cwd root f2 ->
  posixpath.parts cwd f1 = posixpath.parts cwd f2.
Proof.
  intros Hc Hm1 Hm2 Hne1 Hne2 Hd1 Hd2.
  destruct (get_module_name_stem _ _ _ _ Hc Hm1 Hne1)
    as (rel1 & stem1 & Hr1 & Hcl1 & Hp1 & Hj1 & E1).
  destruct (get_module_name_stem _ _ _ _ Hc Hm2 Hne2)
    as (rel2 & stem2 & Hr2 & Hcl2 & Hp2 & Hj2 & E2).
  unfold stem_of in Hd1, Hd2.
  rewrite Hp1, drop_app_length, Hj1, slice_to_ext in Hd1.
  rewrite Hp2, drop_app_length, Hj2, slice_to_ext in Hd2.
  rewrite E1 in E2. do 2 apply app_inv_head in E2.
  apply dotted_inj in E2; [|done..]. subst stem2.
  rewrite Hp1, Hp2. f_equal.
  rewrite <- (split_join posixpath.sep rel1) by (by try apply clean_no_sep).
  rewrite <- (split_join posixpath.sep rel2) by (by try apply clean_no_sep).
  by rewrite Hj1, Hj2.
Qed.

Lemma get_module_name_injective_witness :
  posixpath.parts (lit "/x") (lit "/r/a/b.py")
  = posixpath.parts (lit "/x") (lit "/r/./a//b.py").
Proof.
  apply (get_module_name_injective (lit "/x") (lit "/r") (lit "/r/a/b.py")
           (lit "/r/./a//b.py") (lit "r.a.b")).
  - reflexivity.
  - vm_compute. reflexivity.
  - vm_compute. reflexivity.
  - vm_compute. discriminate.
  - vm_compute. discriminate.
  - intros Hin. by not_in_lit Hin.
  - intros Hin. by not_in_lit Hin.
Defined.

(** ** Multi-source breadth-first search *)

Section BfsCorrect.
Context `{Countable node}.
Variable iter : option node -> gset node -> list node.
Hypothesis iter_perm : forall k s, iter k s ≡ₚ elements s.
Variable reverse_deps : gmap node (gset node).
Variable start_modules : gset node.

Local Abbreviation edge := (Bfs.edge reverse_deps).
Local Abbreviation seed_path := (Bfs.seed_path reverse_deps start_modules).
Local Abbreviation walk_to := (Bfs.walk_to reverse_deps start_modules).
Local Abbreviation recorded := (Bfs.recorded start_modules).
Local Abbreviation done_at := (Bfs.done_at reverse_deps start_modules).
Local Abbreviation mid_inv := (Bfs.mid_inv reverse_deps start_modules).
Local Abbreviation out_inv := (Bfs.out_inv reverse_deps start_modules).
Local Abbreviation bfs_measure :=
  (Bfs.bfs_measure reverse_deps start_modules).

Lemma elem_of_iter k s x : x ∈ iter k s <-> x ∈ s.
Proof. by rewrite (iter_perm k s), elem_of_elements. Qed.

Lemma walk_to_nonempty p n : walk_to p n -> p <> [].
Proof. destruct 1; [done|]. by destruct p. Qed.

Lemma walk_to_seed_path p n : walk_to p n -> seed_path p n.
Proof.
  induction 1 as [s Hs|p u w Hp IH Hedge].
  - split; [by exists s|]. split; [done|].
    intros i u w _ Hw. by destruct i.
  - destruct IH as ([s [Hh Hs]] & Hl & Hadj).
    pose proof (walk_to_nonempty _ _ Hp) as Hne.
    split; [|split].
    + exists s. split; [|done]. destruct p; [done|]. done.
    + by rewrite last_snoc.
    + intros i a b Ha Hb.
      destruct (decide (S i < length p)) as [Hlt|Hge].
      * rewrite lookup_app_l in Ha by lia.
        rewrite lookup_app_l in Hb by lia. eauto.
      * assert (S i = length p) as Hi.
        { apply lookup_lt_Some in Hb. rewrite length_app in Hb.
          simpl in Hb. lia. }
        rewrite lookup_app_l in Ha by lia.
        rewrite lookup_app_r in Hb by lia.
        rewrite Hi, Nat.sub_diag in Hb. injection Hb as <-.
        rewrite last_lookup in Hl.
        replace (pred (length p)) with i in Hl by lia.
        rewrite Ha in Hl. by injection Hl as ->.
Qed.

Lemma seed_path_walk_to p n : seed_path p n -> walk_to p n.
Proof.
  revert n. induction p as [|x p IH] using rev_ind; intros n.
  - by intros ([s [Hh _]] & _).
  - intros ([s [Hh Hs]] & Hl & Hadj).
    rewrite last_snoc in Hl. injection Hl as ->.
    destruct (last p) as [u|] eqn:Hlast.
    + apply Bfs.walk_step with u.
      * apply IH. split; [|split].
        -- exists s. split; [|done]. destruct p; [done|]. done.
        -- done.
        -- intros i a b Ha Hb. apply (Hadj i).
           ++ apply lookup_app_l_Some. done.
           ++ apply lookup_app_l_Some. done.
      * rewrite last_lookup in Hlast.
        apply (Hadj (pred (length p))).
        -- by apply lookup_app_l_Some.
        -- assert (p <> []) as Hne by (intros ->; done).
           replace (S (pred (length p))) with (length p)
             by (destruct p; [done | simpl; lia]).
           by rewrite lookup_app_r, Nat.sub_diag by lia.
    + apply last_None in Hlast. subst p. simpl in Hh.
      injection Hh as ->. by apply Bfs.walk_seed.
Qed.

Lemma recorded_insert_eq paths w q :
  w ∉ start_modules -> recorded (<[w:=q]> paths) w = Some q.
Proof.
  intros Hw. unfold Bfs.recorded. rewrite decide_False by done.
  apply lookup_insert_eq.
Qed.

Lemma recorded_insert_mono paths w q v p :
  recorded paths w = None -> recorded paths v = Some p ->
  recorded (<[w:=q]> paths) v = Some p.
Proof.
  unfold Bfs.recorded. intros Hw Hv. destruct (decide (v ∈ start_modules)); [done|].
  rewrite lookup_insert_ne; [done|]. intros ->.
  rewrite decide_False in Hw by done. congruence.
Qed.

Lemma recorded_insert_inv paths w q v p :
  recorded (<[w:=q]> paths) v = Some p ->
  recorded paths v = Some p \/ (v = w /\ p = q).
Proof.
  unfold Bfs.recorded. destruct (decide (v ∈ start_modules)); [by left|].
  destruct (decide (w = v)) as [->|Hne].
  - rewrite lookup_insert_eq. intros [= <-]. by right.
  - rewrite lookup_insert_ne by done. by left.
Qed.

Lemma recorded_visited (st : bfs_state node) v :
  visited st = start_modules ∪ dom (paths st) ->
  v ∈ visited st <-> is_Some (recorded (paths st) v).
Proof.
  intros ->. unfold Bfs.recorded. rewrite elem_of_union, elem_of_dom.
  destruct (decide (v ∈ start_modules)); [|tauto].
  split; [by eexists | by left].
Qed.

Lemma recorded_walk paths v p :
  (forall v p, paths !! v = Some p -> (v ∉ start_modules) /\ walk_to p v) ->
  recorded paths v = Some p -> walk_to p v.
Proof.
  intros Hp. unfold Bfs.recorded. destruct (decide (v ∈ start_modules)).
  - intros [= <-]. by apply Bfs.walk_seed.
  - intros Hv. by apply Hp.
Qed.

Lemma visit_preserves u pu handled st w :
  mid_inv u pu handled st -> edge u w ->
  mid_inv u pu (handled ++ [w]) (bfs_visit pu st w).
Proof.
  intros [Hvis Hpaths Hq Hsort Hlow Hup Hdone Hcur Hhand] Hedge.
  unfold bfs_visit. destruct (decide (w ∈ visited st)) as [Hin|Hnin].
  - split; try done. intros w' [Hw'| ->%list_elem_of_singleton]%elem_of_app.
    + by apply Hhand.
    + by apply (recorded_visited st).
  - assert (recorded (paths st) w = None) as Hrw.
    { destruct (recorded (paths st) w) eqn:E; [|done].
      exfalso. apply Hnin. apply (recorded_visited st); [done|].
      by rewrite E. }
    assert (w ∉ start_modules) as Hws.
    { intros Hs. unfold Bfs.recorded in Hrw. by rewrite decide_True in Hrw. }
    split; simpl.
    + rewrite Hvis, dom_insert_L. set_solver.
    + intros v p. destruct (decide (w = v)) as [<-|Hne].
      * rewrite lookup_insert_eq. intros [= <-]. split; [done|].
        apply Bfs.walk_step with u; [|done].
        by apply (recorded_walk (paths st)).
      * rewrite lookup_insert_ne by done. apply Hpaths.
    + intros v p [Hold|[= -> ->]%list_elem_of_singleton]%elem_of_app.
      * apply recorded_insert_mono; [done|]. by apply Hq.
      * by apply recorded_insert_eq.
    + apply StronglySorted_app_2; [|done|].
      * intros [v1 p1] [v2 p2] H1 [= -> ->]%list_elem_of_singleton.
        unfold Bfs.qle. simpl. rewrite length_app. simpl.
        apply Hq in H1. apply Hup in H1. lia.
      * repeat constructor.
    + intros v p [Hold|[= -> ->]%list_elem_of_singleton]%elem_of_app.
      * by apply (Hlow v).
      * rewrite length_app. lia.
    + intros v p [Hold|[-> ->]]%recorded_insert_inv.
      * by apply (Hup v).
      * rewrite length_app. simpl. lia.
    + intros v p [Hold|[-> ->]]%recorded_insert_inv.
      * destruct (Hdone v p Hold) as [[p' Hp']|[->|Hd]].
        -- left. exists p'. apply elem_of_app. by left.
        -- by right; left.
        -- right; right. intros w' Hw'. destruct (Hd w' Hw') as (pw & Hpw & Hl).
           exists pw. split; [|done]. by apply recorded_insert_mono.
      * left. eexists. apply elem_of_app. right. left.
    + by apply recorded_insert_mono.
    + intros w' [Hw'| ->%list_elem_of_singleton]%elem_of_app.
      * destruct (Hhand w' Hw') as [pw Hpw]. exists pw.
        by apply recorded_insert_mono.
      * eexists. by apply recorded_insert_eq.
Qed.

Lemma round_preserves u pu ws handled st :
  mid_inv u pu handled st -> Forall (edge u) ws ->
  mid_inv u pu (handled ++ ws) (fold_left (bfs_visit pu) ws st).
Proof.
  intros Hinv Hws. revert handled st Hinv.
  induction Hws as [|w ws Hw _ IH]; intros handled st Hinv; simpl.
  - by rewrite app_nil_r.
  - replace (handled ++ w :: ws) with ((handled ++ [w]) ++ ws)
      by (by rewrite <- app_assoc).
    apply IH. by apply visit_preserves.
Qed.

Lemma dependents_of_edge u w :
  w ∈ dependents_of iter reverse_deps u <-> edge u w.
Proof.
  unfold dependents_of, Bfs.edge. destruct (reverse_deps !! u) as [s|].
  - rewrite elem_of_iter. split; [by exists s | by intros (? & [= <-] & ?)].
  - split; [by intros ?%elem_of_nil | by intros (? & ? & _)].
Qed.

Lemma out_to_mid st u pu rest :
  out_inv st -> queue st = (u, pu) :: rest ->
  mid_inv u pu []
    {| queue := rest; visited := visited st; paths := paths st |}.
Proof.
  intros [Hvis Hpaths Hq Hsort Hup Hdone] Hqueue.
  rewrite Hqueue in Hq, Hsort, Hdone.
  apply StronglySorted_cons in Hsort as [Hhd Hsort].
  split; simpl; try done.
  - intros v p Hin. apply Hq. by right.
  - intros v p Hin. rewrite Forall_forall in Hhd. apply (Hhd (v, p) Hin).
  - intros v p Hv. by apply (Hup u pu rest v p).
  - intros v p Hv. destruct (Hdone v p Hv) as [[p' Hp']|Hd]; [|by right; right].
    apply elem_of_cons in Hp' as [[= -> ->]|Hp']; [by right; left|].
    left. by exists p'.
  - apply Hq. left.
  - by intros w ?%elem_of_nil.
Qed.

Lemma mid_to_out u pu handled st :
  mid_inv u pu handled st -> (forall w, edge u w -> w ∈ handled) ->
  out_inv st.
Proof.
  intros [Hvis Hpaths Hq Hsort Hlow Hup Hdone Hcur Hhand] Hall.
  split; try done.
  - intros h ph rest v p Hqueue Hv. apply Hup in Hv.
    assert (length pu <= length ph); [|lia].
    apply (Hlow h). rewrite Hqueue. left.
  - intros v p Hv. destruct (Hdone v p Hv) as [?|[->|Hd]]; [by left| |by right].
    right. intros w Hw. destruct (Hhand w (Hall w Hw)) as [pw Hpw].
    exists pw. split; [done|]. rewrite Hcur in Hv. injection Hv as <-.
    by apply (Hup w).
Qed.

Lemma init_out : out_inv (bfs_init iter start_modules).
Proof.
  split; simpl.
  - rewrite dom_empty_L. set_solver.
  - intros v p. by rewrite lookup_empty.
  - intros v p (m & [= -> ->] & Hm%elem_of_iter)%list_elem_of_fmap.
    unfold Bfs.recorded. by rewrite decide_True.
  - induction (iter None start_modules) as [|m l IH]; simpl; constructor.
    + done.
    + apply Forall_forall. intros [v p] (m' & [= -> ->] & _)%list_elem_of_fmap.
      unfold Bfs.qle. simpl. lia.
  - intros u pu rest v p _. unfold Bfs.recorded.
    destruct (decide (v ∈ start_modules)); [|by rewrite lookup_empty].
    intros [= <-]. simpl. lia.
  - intros v p. unfold Bfs.recorded.
    destruct (decide (v ∈ start_modules)) as [Hv|]; [|by rewrite lookup_empty].
    intros _. left. exists [v]. apply list_elem_of_fmap. exists v.
    split; [done|]. by apply elem_of_iter.
Qed.

Lemma round_out st u pu rest :
  out_inv st -> queue st = (u, pu) :: rest ->
  out_inv (bfs_round iter reverse_deps u pu
             {| queue := rest; visited := visited st; paths := paths st |}).
Proof.
  intros Hinv Hq. unfold bfs_round.
  apply (mid_to_out u pu ([] ++ dependents_of iter reverse_deps u)).
  - apply round_preserves; [by apply out_to_mid|].
    apply Forall_forall. intros w. apply dependents_of_edge.
  - intros w Hw. by apply dependents_of_edge.
Qed.

(** When the loop returns, the invariant holds with an empty queue. *)
Lemma bfs_loop_inv fuel st res :
  out_inv st -> bfs_loop iter fuel reverse_deps st = Some res ->
  exists st', out_inv st' /\ queue st' = [] /\ paths st' = res.
Proof.
  revert st. induction fuel as [|fuel IH]; intros st Hinv; simpl.
  - destruct (queue st) as [|[u pu] rest] eqn:Hq; [|done].
    intros [= <-]. by exists st.
  - destruct (queue st) as [|[u pu] rest] eqn:Hq.
    + intros [= <-]. by exists st.
    + apply IH. by apply round_out.
Qed.

(** With an empty queue every walk from a seed ends in a visited node
    whose recorded path is no longer than the walk. *)
Lemma finished_minimal st q n :
  out_inv st -> queue st = [] -> walk_to q n ->
  exists p, recorded (paths st) n = Some p /\ length p <= length q.
Proof.
  intros [Hvis Hpaths Hq Hsort Hup Hdone] Hempty.
  induction 1 as [s Hs|q u w _ IH Hedge].
  - exists [s]. split; [|done]. unfold Bfs.recorded. by rewrite decide_True.
  - destruct IH as (pu & Hpu & Hl).
    destruct (Hdone u pu Hpu) as [[p' Hp']|Hd].
    { rewrite Hempty in Hp'. by apply elem_of_nil in Hp'. }
    destruct (Hd w Hedge) as (pw & Hpw & Hlw).
    exists pw. split; [done|]. rewrite length_app. simpl. lia.
Qed.

(** *** Termination *)

Lemma edge_universe u w :
  edge u w -> w ∈ universe reverse_deps start_modules.
Proof.
  intros (s & Hs & Hw). unfold universe. apply elem_of_union. right.
  apply elem_of_union_list. exists s. split; [|done].
  apply list_elem_of_fmap. exists (u, s). split; [done|].
  by apply elem_of_map_to_list.
Qed.

Lemma visit_measure pu st w :
  w ∈ universe reverse_deps start_modules ->
  bfs_measure (bfs_visit pu st w) = bfs_measure st.
Proof.
  intros Hw. unfold bfs_visit. destruct (decide (w ∈ visited st)); [done|].
  unfold Bfs.bfs_measure. simpl. rewrite length_app. simpl.
  set (U := universe reverse_deps start_modules) in *.
  assert (U ∖ visited st = {[w]} ∪ U ∖ (visited st ∪ {[w]})) as ->.
  { apply leibniz_equiv. intros x.
    destruct (decide (x = w)) as [->|]; set_solver. }
  rewrite (size_union {[w]} (U ∖ (visited st ∪ {[w]}))) by set_solver.
  rewrite size_singleton. lia.
Qed.

Lemma round_measure u pu st :
  bfs_measure (bfs_round iter reverse_deps u pu st) = bfs_measure st.
Proof.
  unfold bfs_round.
  assert (Forall (fun w => w ∈ universe reverse_deps start_modules)
            (dependents_of iter reverse_deps u)) as Hall.
  { apply Forall_forall. intros w Hw%dependents_of_edge.
    by apply (edge_universe u). }
  revert st. induction Hall as [|w ws Hw _ IH]; intros st; [done|].
  simpl. rewrite IH. by apply visit_measure.
Qed.

Lemma bfs_loop_terminates fuel st :
  bfs_measure st <= fuel ->
  exists res, bfs_loop iter fuel reverse_deps st = Some res.
Proof.
  revert st. induction fuel as [|fuel IH]; intros st Hm; simpl.
  - destruct (queue st) as [|[u pu] rest] eqn:Hq; [by eexists|].
    unfold Bfs.bfs_measure in Hm. rewrite Hq in Hm. simpl in Hm. lia.
  - destruct (queue st) as [|[u pu] rest] eqn:Hq; [by eexists|].
    apply IH. rewrite round_measure.
    unfold Bfs.bfs_measure in *. rewrite Hq in Hm. simpl in *. lia.
Qed.

Lemma init_measure :
  bfs_measure (bfs_init iter start_modules)
  = size (universe reverse_deps start_modules).
Proof.
  unfold Bfs.bfs_measure, bfs_init. simpl.
  rewrite length_map, (iter_perm None start_modules).
  change (length (elements start_modules)) with (size start_modules).
  rewrite <- (size_union start_modules
                (universe reverse_deps start_modules ∖ start_modules))
    by set_solver.
  f_equal.
  unfold universe. apply leibniz_equiv. intros x.
  destruct (decide (x ∈ start_modules)); set_solver.
Qed.

(** *** The result of [trace_dependency_paths] *)

Lemma trace_result :
  exists res,
    trace_dependency_paths iter reverse_deps start_modules = Some res
    /\ (forall n p, res !! n = Some p -> (n ∉ start_modules) /\ walk_to p n)
    /\ (forall q n, walk_to q n ->
          exists p, recorded res n = Some p /\ length p <= length q).
Proof.
  unfold trace_dependency_paths.
  destruct (bfs_loop_terminates
              (size (universe reverse_deps start_modules))
              (bfs_init iter start_modules)) as [res Hres].
  { by rewrite init_measure. }
  exists res. split; [done|].
  destruct (bfs_loop_inv _ _ _ init_out Hres) as (st' & Hinv & Hq & <-).
  split.
  - apply (Bfs.oi_paths _ _ _ Hinv).
  - intros q n Hw. by apply finished_minimal.
Qed.

End BfsCorrect.

(** C3: [trace_dependency_paths] returns, and for every node of the
    returned map the recorded path starts at a seed, follows edges of the
    reverse graph and ends at the node, and its hop count (its length minus
    one) is the least hop count of any such path from any seed. *)
Theorem trace_dependency_paths_shortest `{Countable node}
    (iter : option node -> gset node -> list node)
    (reverse_deps : gmap node (gset node)) (start_modules : gset node) :
  (forall k s, iter k s ≡ₚ elements s) ->
  exists paths,
    trace_dependency_paths iter reverse_deps start_modules = Some paths
    /\ forall n p,
         paths !! n = Some p ->
         Bfs.seed_path reverse_deps start_modules p n
         /\ forall q,
              Bfs.seed_path reverse_deps start_modules q n ->
              length p - 1 <= length q - 1.
Proof.
  intros Hiter.
  destruct (trace_result iter Hiter reverse_deps start_modules)
    as (paths & Hres & Hsound & Hmin).
  exists paths. split; [done|]. intros n p Hp.
  destruct (Hsound n p Hp) as [Hn Hw]. split.
  - by apply walk_to_seed_path.
  - intros q Hq%seed_path_walk_to.
    destruct (Hmin q n Hq) as (p' & Hp' & Hl).
    unfold Bfs.recorded in Hp'. rewrite decide_False in Hp' by done.
    rewrite Hp in Hp'. injection Hp' as <-. lia.
Qed.

Lemma trace_dependency_paths_shortest_witness :
  exists paths,
    trace_dependency_paths (fun _ => elements)
      (build_reverse_dep_graph [(2, 1); (3, 2); (4, 3); (4, 1); (1, 4)])
      ({[1]} : gset nat) = Some paths
    /\ forall n p,
         paths !! n = Some p ->
         Bfs.seed_path
           (build_reverse_dep_graph [(2, 1); (3, 2); (4, 3); (4, 1); (1, 4)])
           {[1]} p n
         /\ forall q,
              Bfs.seed_path
                (build_reverse_dep_graph
                   [(2, 1); (3, 2); (4, 3); (4, 1); (1, 4)])
                {[1]} q n ->
              length p - 1 <= length q - 1.
Proof.
  apply (trace_dependency_paths_shortest (fun _ => elements)).
  intros k s. reflexivity.
Defined.

(** C9: two runs on the same reverse graph and the same seed set that
    iterate over the seeds and the dependents in different orders both
    return, reach the same nodes, and record for each node paths of the
    same length. *)
Theorem trace_dependency_paths_order `{Countable node}
    (iter1 iter2 : option node -> gset node -> list node)
    (reverse_deps : gmap node (gset node)) (start_modules : gset node) :
  (forall k s, iter1 k s ≡ₚ elements s) ->
  (forall k s, iter2 k s ≡ₚ elements s) ->
  exists paths1 paths2,
    trace_dependency_paths iter1 reverse_deps start_modules = Some paths1
    /\ trace_dependency_paths iter2 reverse_deps start_modules = Some paths2
    /\ dom paths1 = dom paths2
    /\ forall n p1 p2,
         paths1 !! n = Some p1 -> paths2 !! n = Some p2 ->
         length p1 = length p2.
Proof.
  intros Hiter1 Hiter2.
  destruct (trace_result iter1 Hiter1 reverse_deps start_modules)
    as (paths1 & Hres1 & Hsound1 & Hmin1).
  destruct (trace_result iter2 Hiter2 reverse_deps start_modules)
    as (paths2 & Hres2 & Hsound2 & Hmin2).
  exists paths1, paths2. do 2 (split; [done|]).
  assert (forall pa pb : gmap node (list node),
            (forall n p, pa !! n = Some p ->
               (n ∉ start_modules) /\ Bfs.walk_to reverse_deps start_modules p n) ->
            (forall q n, Bfs.walk_to reverse_deps start_modules q n ->
               exists p, Bfs.recorded start_modules pb n = Some p
                         /\ length p <= length q) ->
            forall n p, pa !! n = Some p ->
              exists p', pb !! n = Some p' /\ length p' <= length p) as Hle.
  { intros pa pb Hs Hm n p Hp. destruct (Hs n p Hp) as [Hn Hw].
    destruct (Hm p n Hw) as (p' & Hp' & Hl). exists p'. split; [|done].
    unfold Bfs.recorded in Hp'. by rewrite decide_False in Hp'. }
  split.
  - apply leibniz_equiv. intros n. rewrite !elem_of_dom. split.
    + intros [p Hp]. destruct (Hle paths1 paths2 Hsound1 Hmin2 n p Hp)
        as (p' & Hp' & _). by exists p'.
    + intros [p Hp]. destruct (Hle paths2 paths1 Hsound2 Hmin1 n p Hp)
        as (p' & Hp' & _). by exists p'.
  - intros n p1 p2 Hp1 Hp2.
    destruct (Hle paths1 paths2 Hsound1 Hmin2 n p1 Hp1) as (p & Hp & Hl1).
    destruct (Hle paths2 paths1 Hsound2 Hmin1 n p2 Hp2) as (p' & Hp' & Hl2).
    rewrite Hp2 in Hp. rewrite Hp1 in Hp'.
    injection Hp as <-. injection Hp' as <-. lia.
Qed.

Lemma trace_dependency_paths_order_witness :
  exists paths1 paths2,
    trace_dependency_paths (fun _ => elements)
      (build_reverse_dep_graph [(3, 1); (3, 2); (4, 3); (5, 2)])
      ({[1; 2]} : gset nat) = Some paths1
    /\ trace_dependency_paths (fun _ s => reverse (elements s))
         (build_reverse_dep_graph [(3, 1); (3, 2); (4, 3); (5, 2)])
         ({[1; 2]} : gset nat) = Some paths2
    /\ dom paths1 = dom paths2
    /\ forall n p1 p2,
         paths1 !! n = Some p1 -> paths2 !! n = Some p2 ->
         length p1 = length p2.
Proof.
  apply (trace_dependency_paths_order (fun _ => elements)
           (fun _ s => reverse (elements s))).
  - intros k s. reflexivity.
  - intros k s. apply reverse_Permutation.
Defined.

(** ** Query Engine: package dependents *)

Section ReverseGraph.
Context `{Countable node}.

Lemma build_reverse_acc (imports : list (node * node))
    (acc : gmap node (gset node)) c t :
  c ∈ deps_of
        (fold_left
           (fun (reverse_deps : gmap node (gset node)) '(caller, imported) =>
              <[imported := default ∅ (reverse_deps !! imported) ∪ {[caller]}]>
                reverse_deps) imports acc) t
  <-> (c, t) ∈ imports \/ c ∈ deps_of acc t.
Proof.
  revert acc. induction imports as [|[c0 t0] l IH]; intros acc; simpl.
  - split; [by right|]. by intros [?%elem_of_nil|?].
  - rewrite IH, elem_of_cons. unfold deps_of.
    destruct (decide (t0 = t)) as [->|Hne].
    + rewrite lookup_insert_eq. simpl.
      rewrite elem_of_union, elem_of_singleton.
      split; [intros [?|[?| ->]] | intros [[[= ->]|?]|?]]; auto.
    + rewrite lookup_insert_ne by done.
      split; [intros [?|?]|intros [[[= -> ->]|?]|?]]; auto. done.
Qed.

(** The reverse graph maps a target to the set of its callers. *)
Lemma build_reverse_dep_graph_spec (imports : list (node * node)) c t :
  c ∈ deps_of (build_reverse_dep_graph imports) t <-> (c, t) ∈ imports.
Proof.
  unfold build_reverse_dep_graph. rewrite build_reverse_acc.
  unfold deps_of at 1. rewrite lookup_empty. simpl.
  split; [by intros [?|?%not_elem_of_empty] | by left].
Qed.

Lemma edge_build_reverse (imports : list (node * node)) u w :
  Bfs.edge (build_reverse_dep_graph imports) u w <-> (w, u) ∈ imports.
Proof.
  rewrite <- build_reverse_dep_graph_spec. unfold Bfs.edge, deps_of.
  destruct (build_reverse_dep_graph imports !! u) as [s|]; simpl.
  - split; [by intros (? & [= <-] & ?) | by exists s].
  - split; [by intros (? & ? & _) | by intros ?%not_elem_of_empty].
Qed.

Lemma walk_to_end (reverse_deps : gmap node (gset node)) seeds p n :
  Bfs.walk_to reverse_deps seeds p n ->
  n ∈ seeds \/ exists u, Bfs.edge reverse_deps u n.
Proof. destruct 1; [by left | right; by eexists]. Qed.

End ReverseGraph.

Lemma direct_dependents_spec package all_imports caller :
  caller ∈ direct_dependents package all_imports
  <-> exists target,
        (caller, target) ∈ all_imports
        /\ (target = package
            \/ exists rest, target = package ++ lit "." ++ rest).
Proof.
  unfold direct_dependents. rewrite elem_of_list_to_set, list_elem_of_In, in_map_iff.
  assert (forall t, bool_decide (t = package)
                    || PyStr.startswith t (package ++ lit ".") = true
                    <-> t = package
                        \/ exists rest, t = package ++ lit "." ++ rest) as Hc.
  { intros t. rewrite orb_true_iff, bool_decide_eq_true, startswith_true.
    apply or_iff_compat_l.
    split; intros [r ->]; exists r; by rewrite ?app_assoc. }
  split.
  - intros ([c t] & <- & [Hin Ht]%filter_In). exists t.
    split; [by apply list_elem_of_In | by apply Hc].
  - intros (t & Hin & Ht). exists (caller, t). split; [done|].
    apply filter_In. split; [by apply list_elem_of_In | by apply Hc].
Qed.

(** C5: for a package name and the graph built from the imports, when every
    edge's caller is a known module, mode [not_pkg_dep] reports a set that,
    together with the direct dependents (the callers of an edge whose
    target is the package or starts with the package followed by a dot)
    and the nodes reached by the search, makes up exactly the module
    set. *)
Theorem not_pkg_dep_partition
    (iter : option str -> gset str -> list str)
    (all_modules : gset str) (all_imports : list (str * str))
    (package : str) :
  (forall k s, iter k s ≡ₚ elements s) ->
  (forall caller target,
     (caller, target) ∈ all_imports -> caller ∈ all_modules) ->
  package <> [] ->
  exists paths not_dependent,
    trace_dependency_paths iter (build_reverse_dep_graph all_imports)
      (direct_dependents package all_imports) = Some paths
    /\ not_pkg_dep iter all_modules all_imports (Some package)
       = Reported not_dependent
    /\ direct_dependents package all_imports ∪ dom paths ∪ not_dependent
       = all_modules
    /\ forall caller,
         caller ∈ direct_dependents package all_imports
         <-> exists target,
               (caller, target) ∈ all_imports
               /\ (target = package
                   \/ exists rest, target = package ++ lit "." ++ rest).
Proof.
  intros Hiter Hcallers Hpkg.
  destruct (trace_result iter Hiter (build_reverse_dep_graph all_imports)
              (direct_dependents package all_imports))
    as (paths & Hres & Hsound & _).
  exists paths, (all_modules ∖ (dom paths ∪ direct_dependents package all_imports)).
  split; [done|]. split; [|split].
  - unfold not_pkg_dep. rewrite (proj2 (truthy_true package)) by done.
    simpl. by rewrite Hres.
  - assert (direct_dependents package all_imports ⊆ all_modules) as Hd.
    { intros c (t & Hin & _)%direct_dependents_spec. by apply (Hcallers c t). }
    assert (dom paths ⊆ all_modules) as Hp.
    { intros n [p Hp]%elem_of_dom. destruct (Hsound n p Hp) as [_ Hw].
      apply walk_to_end in Hw as [Hn|[u Hu%edge_build_reverse]].
      - by apply Hd.
      - by apply (Hcallers n u). }
    apply leibniz_equiv. intros x.
    destruct (decide (x ∈ dom paths));
      destruct (decide (x ∈ direct_dependents package all_imports));
      set_solver.
  - apply direct_dependents_spec.
Qed.

Lemma not_pkg_dep_partition_witness :
  exists paths not_dependent,
    trace_dependency_paths (fun _ => elements)
      (build_reverse_dep_graph
         [(lit "r.a", lit "pkg.x"); (lit "r.b", lit "r.a"); (lit "r.c", lit "os")])
      (direct_dependents (lit "pkg")
         [(lit "r.a", lit "pkg.x"); (lit "r.b", lit "r.a"); (lit "r.c", lit "os")])
    = Some paths
    /\ not_pkg_dep (fun _ => elements)
         {[lit "r.a"; lit "r.b"; lit "r.c"; lit "r.d"]}
         [(lit "r.a", lit "pkg.x"); (lit "r.b", lit "r.a"); (lit "r.c", lit "os")]
         (Some (lit "pkg"))
       = Reported not_dependent
    /\ direct_dependents (lit "pkg")
         [(lit "r.a", lit "pkg.x"); (lit "r.b", lit "r.a"); (lit "r.c", lit "os")]
       ∪ dom paths ∪ not_dependent
       = {[lit "r.a"; lit "r.b"; lit "r.c"; lit "r.d"]}
    /\ forall caller,
         caller ∈ direct_dependents (lit "pkg")
           [(lit "r.a", lit "pkg.x"); (lit "r.b", lit "r.a"); (lit "r.c", lit "os")]
         <-> exists target,
               (caller, target)
               ∈ [(lit "r.a", lit "pkg.x"); (lit "r.b", lit "r.a");
                  (lit "r.c", lit "os")]
               /\ (target = lit "pkg"
                   \/ exists rest, target = lit "pkg" ++ lit "." ++ rest).
Proof.
  apply (not_pkg_dep_partition (fun _ => elements)).
  - intros k s. reflexivity.
  - intros caller target Hin.
    repeat (apply elem_of_cons in Hin as [[= -> ->]|Hin]);
      [set_solver.. | by apply elem_of_nil in Hin].
  - discriminate.
Defined.

(** ** Examples *)

Example get_module_name_example :
  get_module_name (lit "/") (lit "/x/pkgA") (lit "/x/pkgA/sub/mod.py")
  = Some (lit "pkgA.sub.mod")
  /\ get_module_name (lit "/home/u") (lit "proj/") (lit "proj/pkg/__init__.py")
     = Some (lit "proj.pkg.__init__")
  /\ get_module_name (lit "/") (lit "/x/pkgA") (lit "/x/pkgA/notes.txt") = None
  /\ get_module_name (lit "/") (lit "/x/pkgA") (lit "/x/pkgA/../other/m.py")
     = None.
Proof. vm_compute. auto. Qed.

Example resolve_relative_import_example :
  resolve_relative_import [lit "a"; lit "b"; lit "c"] 1 None = lit "a.b"
  /\ resolve_relative_import [lit "a"; lit "b"; lit "c"] 2 (Some (lit "x.y"))
     = lit "a.x.y"
  /\ resolve_relative_import [lit "a"; lit "b"; lit "c"] 4 (Some (lit "x"))
     = lit "<invalid>".
Proof. vm_compute. auto. Qed.

Example normpath_example :
  posixpath.normpath (lit "a/../../b//c/./d/") = lit "../b/c/d"
  /\ posixpath.normpath (lit "///a/../../b") = lit "/b"
  /\ posixpath.relpath (lit "/") (lit "/a/b/c") (lit "/a/x")
     = Some (lit "../b/c").
Proof. vm_compute. auto. Qed.

(** The path chosen for a node reachable from two seeds depends on the
    iteration order; its length does not. *)
Example trace_dependency_paths_example :
  (trace_dependency_paths (fun _ => elements)
     (build_reverse_dep_graph [(3, 1); (3, 2); (4, 3); (5, 2)])
     ({[1; 2]} : gset nat)) ≫= (fun paths => paths !! 4)
  = Some [2; 3; 4]
  /\ (trace_dependency_paths (fun _ s => reverse (elements s))
        (build_reverse_dep_graph [(3, 1); (3, 2); (4, 3); (5, 2)])
        ({[1; 2]} : gset nat)) ≫= (fun paths => paths !! 4)
     = Some [1; 3; 4].
Proof. vm_compute. auto. Qed.

(** * Further properties *)

(** ** Import Extractor: the other import forms *)

Lemma split_length_cons c a s :
  length (PyStr.split c s) <= length (PyStr.split c (a :: s)).
Proof.
  simpl. case_bool_decide; simpl; [lia|].
  destruct (PyStr.split c s); simpl; lia.
Qed.

Lemma split_length_app c x y :
  2 <= length (PyStr.split c (x ++ c :: y)).
Proof.
  induction x as [|a x IH].
  - simpl. rewrite bool_decide_true by done. simpl.
    pose proof (split_nonempty c y). destruct (PyStr.split c y); [done|].
    simpl. lia.
  - pose proof (split_length_cons c a (x ++ c :: y)).
    change ((a :: x) ++ c :: y) with (a :: (x ++ c :: y)). lia.
Qed.

(** A module name has at least two dotted segments: the name of the root
    and what lies below it. *)
Lemma get_module_name_segments cwd root file_path m :
  get_module_name cwd root file_path = Some m ->
  2 <= length (PyStr.split "."%char m).
Proof.
  unfold get_module_name. destruct (_ || _); [done|].
  destruct (posixpath.relpath _ _ _); [|done].
  destruct (PyStr.startswith _ _); [done|].
  intros [= <-]. apply split_length_app.
Qed.

Lemma analyze_imports_nodes cwd isfile parse_file root file_path m nodes :
  get_module_name cwd root file_path = Some m ->
  parse_file file_path = Some nodes ->
  analyze_imports cwd isfile parse_file root file_path
  = flat_map (node_edges isfile root m (PyStr.split "."%char m)) nodes.
Proof.
  intros Hm Hp. unfold analyze_imports. rewrite Hm, Hp.
  by rewrite (get_module_name_truthy _ _ _ _ Hm).
Qed.

Lemma node_edges_caller isfile root m parts node c t :
  (c, t) ∈ node_edges isfile root m parts node -> c = m.
Proof.
  destruct node as [names|module names level|]; simpl.
  - intros (a & [= -> ->] & _)%list_elem_of_fmap. done.
  - destruct (level >? 0)%Z.
    + by intros [= -> ->]%list_elem_of_singleton.
    + destruct module as [mo|]; [|by intros ?%elem_of_nil].
      destruct (PyStr.truthy mo); [|by intros ?%elem_of_nil].
      intros (a & [= -> ->] & _)%list_elem_of_fmap. done.
  - by intros ?%elem_of_nil.
Qed.

Lemma analyze_imports_caller cwd isfile parse_file root file_path c t :
  (c, t) ∈ analyze_imports cwd isfile parse_file root file_path ->
  get_module_name cwd root file_path = Some c.
Proof.
  unfold analyze_imports.
  destruct (get_module_name cwd root file_path) as [m|]; [|by intros ?%elem_of_nil].
  destruct (negb (PyStr.truthy m)); [by intros ?%elem_of_nil|].
  destruct (parse_file file_path) as [nodes|]; [|by intros ?%elem_of_nil].
  rewrite list_elem_of_In, in_flat_map. intros (node & _ & Hin).
  apply list_elem_of_In, node_edges_caller in Hin. by subst.
Qed.

(** X1: a plain [import a.b, c.d] in a parsed file contributes one edge
    per name, in order, from the caller module to the name as written. *)
Theorem analyze_imports_plain
    (cwd : str) (isfile : str -> bool)
    (parse_file : str -> option (list ast_node))
    (root file_path caller_module : str) (names : list alias)
    (pre post : list ast_node) :
  get_module_name cwd root file_path = Some caller_module ->
  parse_file file_path = Some (pre ++ Import names :: post) ->
  let caller_parts := PyStr.split "."%char caller_module in
  analyze_imports cwd isfile parse_file root file_path
  = flat_map (node_edges isfile root caller_module caller_parts) pre
      ++ map (fun a => (caller_module, alias_name a)) names
      ++ flat_map (node_edges isfile root caller_module caller_parts) post.
Proof.
  intros Hm Hp caller_parts.
  rewrite (analyze_imports_nodes _ _ _ _ _ _ _ Hm Hp).
  by rewrite flat_map_app.
Qed.

Lemma analyze_imports_plain_witness :
  analyze_imports (lit "/") (fun _ => false)
    (fun _ => Some [Import [{| alias_name := lit "a.b" |};
                            {| alias_name := lit "c.d" |}];
                    OtherNode])
    (lit "/r") (lit "/r/m.py")
  = [(lit "r.m", lit "a.b"); (lit "r.m", lit "c.d")].
Proof.
  rewrite (analyze_imports_plain (lit "/") (fun _ => false)
             (fun _ => Some [Import [{| alias_name := lit "a.b" |};
                                     {| alias_name := lit "c.d" |}];
                             OtherNode])
             (lit "/r") (lit "/r/m.py") (lit "r.m")
             [{| alias_name := lit "a.b" |}; {| alias_name := lit "c.d" |}]
             [] [OtherNode]).
  - reflexivity.
  - vm_compute. reflexivity.
  - reflexivity.
Defined.

(** X2: a relative [from .mod import a, b] (level at least 1) in a parsed
    file contributes a single edge, whatever the imported names, to the
    result of [resolve_relative_import] on the caller's segments; a caller
    has at least two segments, so up to level 2 this is the dot-join of the
    caller's leading segments and the segments of the module suffix. *)
Theorem analyze_imports_relative
    (cwd : str) (isfile : str -> bool)
    (parse_file : str -> option (list ast_node))
    (root file_path caller_module : str) (module : option str)
    (names : list alias) (level : Z) (pre post : list ast_node) :
  get_module_name cwd root file_path = Some caller_module ->
  parse_file file_path
  = Some (pre ++ ImportFrom module names level :: post) ->
  (1 <= level)%Z ->
  let caller_parts := PyStr.split "."%char caller_module in
  analyze_imports cwd isfile parse_file root file_path
  = flat_map (node_edges isfile root caller_module caller_parts) pre
      ++ [(caller_module, resolve_relative_import caller_parts level module)]
      ++ flat_map (node_edges isfile root caller_module caller_parts) post
  /\ ((level <= 2)%Z ->
      resolve_relative_import caller_parts level module
      = PyStr.join (lit ".")
          (take (length caller_parts - Z.to_nat level) caller_parts
             ++ suffix_segments module)).
Proof.
  intros Hm Hp Hl caller_parts. split.
  - rewrite (analyze_imports_nodes _ _ _ _ _ _ _ Hm Hp).
    rewrite flat_map_app. simpl flat_map.
    destruct (Z.gtb_spec level 0); [done | lia].
  - intros Hl2. apply resolve_relative_import_in_range.
    pose proof (get_module_name_segments _ _ _ _ Hm).
    subst caller_parts. lia.
Qed.

Lemma analyze_imports_relative_witness :
  analyze_imports (lit "/") (fun _ => false)
    (fun _ => Some [ImportFrom (Some (lit "x")) [{| alias_name := lit "a" |};
                                                  {| alias_name := lit "b" |}] 2])
    (lit "/r") (lit "/r/pkg/m.py")
  = [(lit "r.pkg.m", lit "r.x")].
Proof.
  destruct (analyze_imports_relative (lit "/") (fun _ => false)
              (fun _ => Some [ImportFrom (Some (lit "x"))
                                [{| alias_name := lit "a" |};
                                 {| alias_name := lit "b" |}] 2])
              (lit "/r") (lit "/r/pkg/m.py") (lit "r.pkg.m")
              (Some (lit "x"))
              [{| alias_name := lit "a" |}; {| alias_name := lit "b" |}]
              2 [] []) as [E _].
  - vm_compute. reflexivity.
  - reflexivity.
  - lia.
  - rewrite E. vm_compute. reflexivity.
Defined.

(** X3: every edge [analyze_imports] returns has the module name of the
    analysed file as its caller; a file without a module name and a file
    that cannot be read or parsed give no edge. *)
Theorem analyze_imports_callers
    (cwd : str) (isfile : str -> bool)
    (parse_file : str -> option (list ast_node)) (root file_path : str) :
  (forall caller target,
     (caller, target) ∈ analyze_imports cwd isfile parse_file root file_path ->
     get_module_name cwd root file_path = Some caller
     /\ parse_file file_path <> None)
  /\ (get_module_name cwd root file_path = None ->
      analyze_imports cwd isfile parse_file root file_path = [])
  /\ (parse_file file_path = None ->
      analyze_imports cwd isfile parse_file root file_path = []).
Proof.
  split; [|split].
  - intros c t Hin. split; [by apply analyze_imports_caller in Hin|].
    intros Hp. unfold analyze_imports in Hin. rewrite Hp in Hin.
    destruct (get_module_name cwd root file_path) as [m|];
      [|by apply elem_of_nil in Hin].
    destruct (negb (PyStr.truthy m)); by apply elem_of_nil in Hin.
  - intros Hm. unfold analyze_imports. by rewrite Hm.
  - intros Hp. unfold analyze_imports. rewrite Hp.
    destruct (get_module_name cwd root file_path) as [m|]; [|done].
    by destruct (negb (PyStr.truthy m)).
Qed.

(** ** Module Resolver: acceptance and spelling *)

Section ResolverMore.
Import PyStr.
Local Abbreviation sep := posixpath.sep.

Lemma join_head (s : str) a l :
  exists X, join s (a :: l) = a ++ X /\ (l = [] -> X = []).
Proof.
  destruct l as [|b l].
  - exists []. by rewrite app_nil_r.
  - exists (s ++ join s (b :: l)). by rewrite join_cons.
Qed.

Lemma startswith_join_pardir a r :
  clean a ->
  startswith (join [sep] (a :: r)) posixpath.pardir
  = startswith a posixpath.pardir.
Proof.
  intros (Hne & _ & Hcur & _).
  destruct (join_head [sep] a r) as (X & -> & _).
  destruct (startswith a posixpath.pardir) eqn:Ha.
  - apply startswith_true in Ha as [t ->]. apply startswith_true.
    exists (t ++ X). by rewrite <- app_assoc.
  - apply not_true_is_false. intros [t Ht]%startswith_true.
    destruct a as [|c1 [|c2 a']]; [done| |].
    + apply Hcur. simpl in Ht. by injection Ht as -> _.
    + simpl in Ht. injection Ht as -> -> _.
      rewrite (proj2 (startswith_true _ _)) in Ha; [done|]. by exists a'.
Qed.

Lemma join_app (s : str) l1 l2 :
  l1 <> [] -> l2 <> [] -> join s (l1 ++ l2) = join s l1 ++ s ++ join s l2.
Proof.
  intros H1 H2. induction l1 as [|x l1 IH]; [done|].
  destruct l1 as [|y l1].
  - simpl app. by rewrite join_cons.
  - change ((x :: y :: l1) ++ l2) with (x :: ((y :: l1) ++ l2)).
    rewrite !join_cons by done. rewrite IH by done.
    by rewrite <- !app_assoc.
Qed.

Lemma join_split_id c s : join [c] (split c s) = s.
Proof.
  rewrite join_split_map. induction s as [|a s IH]; [done|]. simpl.
  rewrite IH. by case_bool_decide; subst.
Qed.

End ResolverMore.

(** X4: the module name depends on the root and on the file only through
    their absolute, normalised paths: two spellings of the same root and
    of the same file get the same answer, and so do the normalised paths
    themselves. *)
Theorem get_module_name_spelling (cwd root root' file_path file_path' : str) :
  posixpath.isabs cwd = true ->
  posixpath.abspath cwd root = posixpath.abspath cwd root' ->
  posixpath.abspath cwd file_path = posixpath.abspath cwd file_path' ->
  get_module_name cwd root file_path = get_module_name cwd root' file_path'
  /\ get_module_name cwd (posixpath.abspath cwd root)
       (posixpath.abspath cwd file_path)
     = get_module_name cwd root file_path.
Proof.
  intros Hc Hr Hf. split.
  - unfold get_module_name. by rewrite Hr, Hf.
  - unfold get_module_name. by rewrite !abspath_idem.
Qed.

Lemma get_module_name_spelling_witness :
  get_module_name (lit "/x") (lit "pkgA/") (lit "./pkgA/sub/../sub/mod.py")
  = get_module_name (lit "/x") (lit "/x/pkgA") (lit "/x/pkgA/sub/mod.py").
Proof.
  apply (get_module_name_spelling (lit "/x") (lit "pkgA/") (lit "/x/pkgA")
           (lit "./pkgA/sub/../sub/mod.py") (lit "/x/pkgA/sub/mod.py")).
  - reflexivity.
  - vm_compute. reflexivity.
  - vm_compute. reflexivity.
Defined.

(** X5: which files get a module name. A file is accepted exactly when its
    absolute path ends in [.py], starts with the absolute path of the
    root, lies under the root component by component, and the first
    component below the root does not begin with [..]. So the guard on the
    relative path also turns away files under the root whose first
    component merely begins with two dots. *)
Theorem get_module_name_accepts_iff (cwd root file_path : str) :
  posixpath.isabs cwd = true ->
  (is_Some (get_module_name cwd root file_path)
   <-> PyStr.endswith (posixpath.abspath cwd file_path) (lit ".py") = true
       /\ PyStr.startswith (posixpath.abspath cwd file_path)
            (posixpath.abspath cwd root) = true
       /\ exists r,
            posixpath.parts cwd file_path = posixpath.parts cwd root ++ r
            /\ match r with
               | [] => True
               | a :: _ => PyStr.startswith a (lit "..") = false
               end).
Proof.
  intros Hc. unfold get_module_name.
  destruct (PyStr.endswith _ _) eqn:He; simpl.
  2:{ split; [by intros [? ?] | by intros [? _]]. }
  destruct (PyStr.startswith (posixpath.abspath cwd file_path) _) eqn:Hs; simpl.
  2:{ split; [by intros [? ?] | by intros (_ & ? & _)]. }
  destruct (decide (posixpath.parts cwd root
                      `prefix_of` posixpath.parts cwd file_path))
    as [[r Hr]|Hnp].
  - rewrite (relpath_under _ _ _ r Hc Hr).
    pose proof (parts_clean cwd file_path Hc) as Hcl. rewrite Hr in Hcl.
    apply Forall_app in Hcl as [_ Hcl].
    assert (PyStr.startswith
              match r with
              | [] => posixpath.curdir
              | _ :: _ => PyStr.join [posixpath.sep] r
              end (lit "..")
            = match r with
              | [] => false
              | a :: _ => PyStr.startswith a (lit "..")
              end) as ->.
    { destruct r as [|a r']; [done|].
      apply Forall_cons in Hcl as [Ha _].
      by apply (startswith_join_pardir a r'). }
    split.
    + intros Hsome. do 2 (split; [done|]). exists r. split; [done|].
      destruct r as [|a r']; [done|].
      destruct (PyStr.startswith a (lit "..")); [by destruct Hsome | done].
    + intros (_ & _ & r2 & Hr2 & Hhead).
      assert (r2 = r) as -> by (by apply (app_inv_head (posixpath.parts cwd root)); rewrite <- Hr, <- Hr2).
      destruct r as [|a r']; [by eexists|]. rewrite Hhead. by eexists.
  - destruct (relpath_outside _ _ _ Hc Hnp) as [t ->].
    rewrite (proj2 (startswith_true _ _)) by (by eexists).
    split; [by intros [? ?]|]. intros (_ & _ & r & Hr & _).
    exfalso. apply Hnp. by exists r.
Qed.

Lemma get_module_name_accepts_iff_witness :
  get_module_name (lit "/") (lit "/r") (lit "/r/..cache/m.py") = None.
Proof.
  destruct (get_module_name (lit "/") (lit "/r") (lit "/r/..cache/m.py"))
    as [m|] eqn:E; [|reflexivity].
  exfalso.
  assert (is_Some (get_module_name (lit "/") (lit "/r") (lit "/r/..cache/m.py")))
    as Hs by (rewrite E; by eexists).
  apply (get_module_name_accepts_iff (lit "/") (lit "/r")
           (lit "/r/..cache/m.py") eq_refl) in Hs
    as (_ & _ & r & Hr & Hhead).
  vm_compute in Hr. injection Hr as <-. vm_compute in Hhead. discriminate.
Defined.

(** X6: for a caller module [m] and a level within its segments, the
    target of a relative import without suffix is [m] cut before its last
    [level] dotted segments, and a suffix is appended after a dot; when the
    level takes all segments, the target is the suffix alone. *)
Theorem resolve_relative_import_prefix (m : str) (level : Z) :
  let caller_parts := PyStr.split "."%char m in
  (1 <= level <= Z.of_nat (length caller_parts))%Z ->
  let base := resolve_relative_import caller_parts level None in
  ((level < Z.of_nat (length caller_parts))%Z ->
     exists tail,
       m = base ++ lit "." ++ tail
       /\ length (PyStr.split "."%char tail) = Z.to_nat level)
  /\ (level = Z.of_nat (length caller_parts) -> base = [])
  /\ forall x,
       x <> [] ->
       resolve_relative_import caller_parts level (Some x)
       = if (level <? Z.of_nat (length caller_parts))%Z
         then base ++ lit "." ++ x else x.
Proof.
  intros caller_parts Hl base.
  assert (base = PyStr.join (lit ".")
                   (take (length caller_parts - Z.to_nat level) caller_parts))
    as Hbase.
  { unfold base. rewrite resolve_relative_import_in_range by done.
    simpl. by rewrite app_nil_r. }
  assert (Forall (fun w => "."%char ∉ w) caller_parts) as Hdots.
  { apply Forall_forall. intros w Hw. by apply split_no_sep in Hw. }
  split; [|split].
  - intros Hlt.
    exists (PyStr.join (lit ".")
              (drop (length caller_parts - Z.to_nat level) caller_parts)).
    assert (take (length caller_parts - Z.to_nat level) caller_parts <> [])
      as Ht.
    { intros E. apply (f_equal length) in E. rewrite length_take in E.
      simpl in E. lia. }
    assert (drop (length caller_parts - Z.to_nat level) caller_parts <> [])
      as Hd.
    { intros E. apply (f_equal length) in E. rewrite length_drop in E.
      simpl in E. lia. }
    split.
    + rewrite Hbase. change (lit ".") with ["."%char].
      rewrite <- join_app by done. rewrite take_drop.
      symmetry. apply join_split_id.
    + change (lit ".") with ["."%char]. rewrite split_join.
      * rewrite length_drop. lia.
      * done.
      * by apply Forall_drop.
  - intros ->. rewrite Hbase.
    replace (length caller_parts - Z.to_nat (Z.of_nat (length caller_parts)))
      with 0 by lia.
    done.
  - intros x Hx. rewrite resolve_relative_import_in_range by done.
    assert (suffix_segments (Some x) = PyStr.split "."%char x) as ->
      by (by destruct x).
    pose proof (split_nonempty "."%char x) as Hsx.
    destruct (Z.ltb_spec level (Z.of_nat (length caller_parts))) as [Hlt|Hge].
    + rewrite Hbase. change (lit ".") with ["."%char].
      rewrite join_app, join_split_id; [done| |done].
      intros E. apply (f_equal length) in E. rewrite length_take in E.
      simpl in E. lia.
    + replace (length caller_parts - Z.to_nat level) with 0 by lia.
      change (lit ".") with ["."%char]. simpl take. simpl app.
      apply join_split_id.
Qed.

Lemma resolve_relative_import_prefix_witness :
  resolve_relative_import (PyStr.split "."%char (lit "r.pkg.sub.m")) 2
    (Some (lit "x.y"))
  = lit "r.pkg.x.y".
Proof.
  destruct (resolve_relative_import_prefix (lit "r.pkg.sub.m") 2)
    as (_ & _ & Hx).
  - vm_compute. split; discriminate.
  - rewrite (Hx (lit "x.y")); [vm_compute; reflexivity | discriminate].
Defined.

(** ** Graph Builder *)

Section Collect.
Variable cwd : str.
Variable isfile : str -> bool.
Variable parse_file : str -> option (list ast_node).
Variable walk : str -> list (str * list str).



Lemma module_to_path_fold (found : list (str * (str * str)))
    (acc : gmap str str) m :
  fold_left (fun (mp : gmap str str) '(module, (_, file_path)) =>
               <[module := posixpath.abspath cwd file_path]> mp) found acc
    !! m
  = match last_path cwd found m with
    | Some p => Some p
    | None => acc !! m
    end.
Proof.
  revert acc. induction found as [|[m0 [r0 f0]] l IH]; intros acc; [done|].
  cbn [fold_left]. rewrite IH. unfold last_path.
  change (omap ?f ((m0, (r0, f0)) :: l))
    with (match (if bool_decide (m0 = m)
                 then Some (posixpath.abspath cwd f0) else None) with
          | Some y => y :: omap f l
          | None => omap f l
          end).
  case_bool_decide as Hm.
  - subst m0. rewrite last_cons, lookup_insert_eq.
    by destruct (last _).
  - by rewrite lookup_insert_ne.
Qed.

Lemma last_path_Some found m p :
  last_path cwd found m = Some p ->
  exists root file_path,
    (m, (root, file_path)) ∈ found /\ p = posixpath.abspath cwd file_path.
Proof.
  unfold last_path. intros Hl.
  assert (p ∈ omap (fun '(m', (_, file_path)) =>
                      if bool_decide (m' = m)
                      then Some (posixpath.abspath cwd file_path) else None)
                   found) as Hin.
  { apply last_Some in Hl as [l' ->]. apply elem_of_app. right. left. }
  apply list_elem_of_omap in Hin as ([m' [root file_path]] & Hin & Hf).
  case_bool_decide; [|done]. injection Hf as <-. subst m'.
  by exists root, file_path.
Qed.

Lemma last_path_is_Some found m :
  is_Some (last_path cwd found m) <-> m ∈ map fst found.
Proof.
  split.
  - intros [p (root & file_path & Hin & _)%last_path_Some].
    apply list_elem_of_fmap. by exists (m, (root, file_path)).
  - intros ([m' [root file_path]] & Hm & Hin)%list_elem_of_fmap.
    simpl in Hm. subst m'. unfold last_path.
    destruct (last _) eqn:E; [by eexists|].
    apply last_None in E.
    assert (posixpath.abspath cwd file_path ∈ @nil str) as Hnil.
    { rewrite <- E. apply list_elem_of_omap. exists (m, (root, file_path)).
      split; [done|]. by rewrite bool_decide_true. }
    by apply elem_of_nil in Hnil.
Qed.


(** X8: when two discovered files have the same module name, the path of
    the one discovered last is kept: a file after which no file of the
    same module name is discovered is the one [module_to_path] records. *)
Theorem collect_modules_and_imports_last_writer (roots : list str)
    (before after : list (str * (str * str))) (m root file_path : str) :
  flat_map (discover cwd walk) roots
  = before ++ (m, (root, file_path)) :: after ->
  m ∉ map fst after ->
  (collect_modules_and_imports cwd isfile parse_file walk roots).2 !! m
  = Some (posixpath.abspath cwd file_path).
Proof.
  intros Hfound Hafter. unfold collect_modules_and_imports. simpl.
  rewrite module_to_path_fold, lookup_empty, Hfound.
  unfold last_path. rewrite omap_app.
  change (omap ?f ((m, (root, file_path)) :: after))
    with (match (if bool_decide (m = m)
                 then Some (posixpath.abspath cwd file_path) else None) with
          | Some y => y :: omap f after
          | None => omap f after
          end).
  rewrite bool_decide_true by done.
  assert (last_path cwd after m = None) as Hnone.
  { destruct (last_path cwd after m) eqn:E; [|done].
    exfalso. apply Hafter. apply last_path_is_Some. by rewrite E. }
  unfold last_path in Hnone. apply last_None in Hnone. rewrite Hnone.
  by rewrite last_snoc.
Qed.

End Collect.

Lemma collect_modules_and_imports_last_writer_witness :
  (collect_modules_and_imports (lit "/") (fun _ => false) (fun _ => None)
     (fun root =>
        if bool_decide (root = lit "/a/lib") then [(lit "/a/lib", [lit "m.py"])]
        else [(lit "/b/lib", [lit "m.py"])])
     [lit "/a/lib"; lit "/b/lib"]).2 !! lit "lib.m"
  = Some (lit "/b/lib/m.py").
Proof.
  apply (collect_modules_and_imports_last_writer (lit "/") (fun _ => false)
           (fun _ => None)
           (fun root =>
              if bool_decide (root = lit "/a/lib")
              then [(lit "/a/lib", [lit "m.py"])]
              else [(lit "/b/lib", [lit "m.py"])])
           [lit "/a/lib"; lit "/b/lib"]
           [(lit "lib.m", (lit "/a/lib", lit "/a/lib/m.py"))] []
           (lit "lib.m") (lit "/b/lib") (lit "/b/lib/m.py")).
  - vm_compute. reflexivity.
  - simpl. apply not_elem_of_nil.
Defined.

(** ** Reverse graph *)

Section ReverseGraphMore.
Context `{Countable node}.

Lemma build_reverse_keys_acc (imports : list (node * node))
    (acc : gmap node (gset node)) t :
  is_Some
    (fold_left
       (fun (reverse_deps : gmap node (gset node)) '(caller, imported) =>
          <[imported := default ∅ (reverse_deps !! imported) ∪ {[caller]}]>
            reverse_deps) imports acc !! t)
  <-> (exists c, (c, t) ∈ imports) \/ is_Some (acc !! t).
Proof.
  revert acc. induction imports as [|[c0 t0] l IH]; intros acc; simpl.
  - split; [by right|]. by intros [[c ?%elem_of_nil]|?].
  - rewrite IH. destruct (decide (t0 = t)) as [->|Hne].
    + rewrite lookup_insert_eq. split.
      * intros [[c Hc]|_]; left; [exists c; by right | exists c0; left].
      * intros _. right. by eexists.
    + rewrite lookup_insert_ne by done. split.
      * intros [[c Hc]|?]; [left; exists c; by right | by right].
      * intros [[c [[= -> ->]|Hc]%elem_of_cons]|?];
          [done | left; by exists c | by right].
  Qed.

(** X9: the reverse graph has a key exactly for the targets of the edge
    list, and the set under a target holds exactly the callers that import
    it, each once however often the edge is repeated. *)
Theorem build_reverse_dep_graph_lookup (imports : list (node * node))
    (t : node) :
  (is_Some (build_reverse_dep_graph imports !! t)
   <-> exists c, (c, t) ∈ imports)
  /\ forall s,
       build_reverse_dep_graph imports !! t = Some s ->
       forall c, c ∈ s <-> (c, t) ∈ imports.
Proof.
  split.
  - unfold build_reverse_dep_graph. rewrite build_reverse_keys_acc.
    rewrite lookup_empty. split; [intros [?|[? ?]]; done | by left].
  - intros s Hs c. rewrite <- build_reverse_dep_graph_spec.
    unfold deps_of. by rewrite Hs.
Qed.

End ReverseGraphMore.

(** ** Multi-source breadth-first search: reach and shape of the paths *)

Section BfsMore.
Context `{Countable node}.
Variable iter : option node -> gset node -> list node.
Hypothesis iter_perm : forall k s, iter k s ≡ₚ elements s.
Variable reverse_deps : gmap node (gset node).
Variable start_modules : gset node.

Local Abbreviation edge := (Bfs.edge reverse_deps).
Local Abbreviation walk_to := (Bfs.walk_to reverse_deps start_modules).
Local Abbreviation recorded := (Bfs.recorded start_modules).
Local Abbreviation mid_inv := (Bfs.mid_inv reverse_deps start_modules).
Local Abbreviation out_inv := (Bfs.out_inv reverse_deps start_modules).
Local Abbreviation pref_inv := (pref_inv reverse_deps start_modules).

Lemma visit_pref u pu handled st w :
  mid_inv u pu handled st -> pref_inv (paths st) -> edge u w ->
  pref_inv (paths (bfs_visit pu st w)).
Proof.
  intros Hmid Hpref Hedge. unfold bfs_visit.
  destruct (decide (w ∈ visited st)) as [Hin|Hnin]; [done|]. simpl.
  assert (recorded (paths st) w = None) as Hrw.
  { destruct (recorded (paths st) w) eqn:E; [|done].
    exfalso. apply Hnin.
    apply (recorded_visited start_modules st);
      [exact (Bfs.mi_visited _ _ _ _ _ _ Hmid)|].
    by rewrite E. }
  intros n p. destruct (decide (w = n)) as [<-|Hne].
  - rewrite lookup_insert_eq. intros [= <-]. exists u, pu.
    split; [done|]. split; [|done].
    apply recorded_insert_mono; [done|].
    exact (Bfs.mi_cur _ _ _ _ _ _ Hmid).
  - rewrite lookup_insert_ne by done. intros Hp.
    destruct (Hpref n p Hp) as (u0 & q & -> & Hq & He).
    exists u0, q. split; [done|]. split; [|done].
    by apply recorded_insert_mono.
Qed.

Lemma round_pref u pu ws handled st :
  mid_inv u pu handled st -> pref_inv (paths st) -> Forall (edge u) ws ->
  pref_inv (paths (fold_left (bfs_visit pu) ws st)).
Proof.
  intros Hmid Hpref Hws. revert handled st Hmid Hpref.
  induction Hws as [|w ws Hw _ IH]; intros handled st Hmid Hpref; [done|].
  simpl. apply (IH (handled ++ [w])).
  - by apply (visit_preserves iter iter_perm).
  - by apply (visit_pref u pu handled).
Qed.

Lemma bfs_loop_pref fuel st res :
  out_inv st -> pref_inv (paths st) ->
  bfs_loop iter fuel reverse_deps st = Some res -> pref_inv res.
Proof.
  revert st. induction fuel as [|fuel IH]; intros st Hinv Hpref; simpl.
  - destruct (queue st) as [|[u pu] rest] eqn:Hq; [|done]. by intros [= <-].
  - destruct (queue st) as [|[u pu] rest] eqn:Hq; [by intros [= <-]|].
    apply IH.
    + by apply (round_out iter iter_perm).
    + unfold bfs_round. apply (round_pref u pu _ []).
      * by apply out_to_mid.
      * done.
      * apply Forall_forall. intros w.
        by apply (dependents_of_edge iter iter_perm).
Qed.

(** the result of the search, with the shape of its paths *)
Lemma trace_result_pref :
  exists res,
    trace_dependency_paths iter reverse_deps start_modules = Some res
    /\ (forall n p, res !! n = Some p -> (n ∉ start_modules) /\ walk_to p n)
    /\ (forall q n, walk_to q n ->
          exists p, recorded res n = Some p /\ length p <= length q)
    /\ pref_inv res.
Proof.
  destruct (trace_result iter iter_perm reverse_deps start_modules)
    as (res & Hres & Hsound & Hmin).
  exists res. do 3 (split; [done|]).
  unfold trace_dependency_paths in Hres.
  apply (bfs_loop_pref _ _ _ (init_out iter iter_perm reverse_deps start_modules))
    in Hres; [done|].
  intros n p. simpl. by rewrite lookup_empty.
Qed.

(** Every prefix of a recorded path is the path recorded for its last
    node. *)
Lemma recorded_prefix res p :
  pref_inv res ->
  forall n, recorded res n = Some p ->
  forall k, k < length p ->
    exists v, p !! k = Some v /\ recorded res v = Some (take (S k) p).
Proof.
  intros Hpref. induction p as [|x q IH] using rev_ind; intros n Hn k Hk.
  { simpl in Hk. lia. }
  assert ((q = [] /\ x = n /\ n ∈ start_modules)
          \/ exists u, x = n /\ recorded res u = Some q) as Hcase.
  { unfold Bfs.recorded in Hn. destruct (decide (n ∈ start_modules)).
    - left. injection Hn as Hn. destruct q as [|? [|? ?]]; try done.
      simpl in Hn. by injection Hn as ->.
    - right. destruct (Hpref n _ Hn) as (u & q' & Hq & Hu & _).
      apply app_inj_tail in Hq as [-> ->]. by exists u. }
  rewrite length_app in Hk. simpl in Hk.
  destruct (decide (k < length q)) as [Hlt|Hge].
  - destruct Hcase as [(-> & _)|(u & -> & Hu)]; [simpl in Hlt; lia|].
    destruct (IH u Hu k Hlt) as (v & Hv & Hrec).
    exists v. split; [by rewrite lookup_app_l|].
    by rewrite take_app_le by lia.
  - assert (k = length q) as -> by lia.
    exists x. split.
    + by rewrite lookup_app_r, Nat.sub_diag by lia.
    + rewrite take_ge by (rewrite length_app; simpl; lia).
      by destruct Hcase as [(_ & -> & _)|(u & -> & _)].
Qed.

End BfsMore.

(** X10: the search reaches exactly the nodes that are not seeds and have
    a path from a seed along edges of the reverse graph; without seeds it
    returns the empty map. *)
Theorem trace_dependency_paths_reach `{Countable node}
    (iter : option node -> gset node -> list node)
    (reverse_deps : gmap node (gset node)) (start_modules : gset node) :
  (forall k s, iter k s ≡ₚ elements s) ->
  exists paths,
    trace_dependency_paths iter reverse_deps start_modules = Some paths
    /\ (forall n,
          n ∈ dom paths
          <-> (n ∉ start_modules)
              /\ exists q, Bfs.seed_path reverse_deps start_modules q n)
    /\ (start_modules = ∅ -> paths = ∅).
Proof.
  intros Hiter.
  destruct (trace_result iter Hiter reverse_deps start_modules)
    as (paths & Hres & Hsound & Hmin).
  exists paths. split; [done|].
  assert (forall n,
            n ∈ dom paths
            <-> (n ∉ start_modules)
                /\ exists q, Bfs.seed_path reverse_deps start_modules q n)
    as Hdom.
  { intros n. rewrite elem_of_dom. split.
    - intros [p Hp]. destruct (Hsound n p Hp) as [Hn Hw].
      split; [done|]. exists p. by apply walk_to_seed_path.
    - intros [Hn [q Hq%seed_path_walk_to]].
      destruct (Hmin q n Hq) as (p & Hp & _). exists p.
      unfold Bfs.recorded in Hp. by rewrite decide_False in Hp. }
  split; [done|]. intros ->. apply map_empty. intros n.
  apply not_elem_of_dom. rewrite Hdom.
  intros [_ [q ([s [_ Hs]] & _)]]. by apply not_elem_of_empty in Hs.
Qed.

Lemma trace_dependency_paths_reach_witness :
  exists paths,
    trace_dependency_paths (fun _ => elements)
      (build_reverse_dep_graph [(2, 1); (3, 2); (1, 3); (5, 4)])
      ({[1]} : gset nat) = Some paths
    /\ (forall n,
          n ∈ dom paths
          <-> (n ∉ ({[1]} : gset nat))
              /\ exists q,
                   Bfs.seed_path
                     (build_reverse_dep_graph [(2, 1); (3, 2); (1, 3); (5, 4)])
                     {[1]} q n)
    /\ (({[1]} : gset nat) = ∅ -> paths = ∅).
Proof.
  apply (trace_dependency_paths_reach (fun _ => elements)).
  intros k s. reflexivity.
Defined.

(** X11: a recorded path never visits a node twice, only its first node
    is a seed, and each of its prefixes of two or more nodes is the path
    recorded for the node the prefix ends in. *)
Theorem trace_dependency_paths_simple `{Countable node}
    (iter : option node -> gset node -> list node)
    (reverse_deps : gmap node (gset node)) (start_modules : gset node) :
  (forall k s, iter k s ≡ₚ elements s) ->
  exists paths,
    trace_dependency_paths iter reverse_deps start_modules = Some paths
    /\ forall n p,
         paths !! n = Some p ->
         NoDup p
         /\ forall k v,
              0 < k -> p !! k = Some v ->
              (v ∉ start_modules) /\ paths !! v = Some (take (S k) p).
Proof.
  intros Hiter.
  destruct (trace_result_pref iter Hiter reverse_deps start_modules)
    as (paths & Hres & Hsound & _ & Hpref).
  exists paths. split; [done|]. intros n p Hp.
  destruct (Hsound n p Hp) as [Hn _].
  assert (Bfs.recorded start_modules paths n = Some p) as Hrec.
  { unfold Bfs.recorded. by rewrite decide_False. }
  pose proof (recorded_prefix reverse_deps start_modules paths p Hpref n Hrec)
    as Hpre.
  split.
  - apply NoDup_alt. intros i j x Hi Hj.
    destruct (Hpre i (lookup_lt_Some _ _ _ Hi)) as (v & Hv & Hrv).
    destruct (Hpre j (lookup_lt_Some _ _ _ Hj)) as (v' & Hv' & Hrv').
    rewrite Hi in Hv. rewrite Hj in Hv'.
    injection Hv as <-. injection Hv' as <-.
    rewrite Hrv in Hrv'. injection Hrv' as E.
    apply (f_equal length) in E. rewrite !length_take in E.
    apply lookup_lt_Some in Hi, Hj. lia.
  - intros k v Hk Hv.
    destruct (Hpre k (lookup_lt_Some _ _ _ Hv)) as (v' & Hv' & Hrv).
    rewrite Hv in Hv'. injection Hv' as <-.
    unfold Bfs.recorded in Hrv.
    destruct (decide (v ∈ start_modules)); [|done].
    exfalso. injection Hrv as E. apply (f_equal length) in E.
    rewrite length_take in E. apply lookup_lt_Some in Hv.
    change (length [v]) with 1 in E. lia.
Qed.

Lemma trace_dependency_paths_simple_witness :
  exists paths,
    trace_dependency_paths (fun _ => elements)
      (build_reverse_dep_graph [(2, 1); (3, 2); (1, 3); (2, 3)])
      ({[1]} : gset nat) = Some paths
    /\ forall n p,
         paths !! n = Some p ->
         NoDup p
         /\ forall k v,
              0 < k -> p !! k = Some v ->
              (v ∉ ({[1]} : gset nat)) /\ paths !! v = Some (take (S k) p).
Proof.
  apply (trace_dependency_paths_simple (fun _ => elements)).
  intros k s. reflexivity.
Defined.

(** ** Query Engine: what the package modes report *)

Section PackageModes.
Variable all_imports : list (str * str).
Variable package : str.

Local Abbreviation graph := (build_reverse_dep_graph all_imports).
Local Abbreviation direct := (direct_dependents package all_imports).

Lemma walk_depends p n :
  Bfs.walk_to graph direct p n -> depends_on all_imports package n.
Proof.
  induction 1 as [s Hs|p u w _ IH Hedge].
  - apply direct_dependents_spec in Hs as (t & Hin & Ht).
    by apply depends_direct with t.
  - apply edge_build_reverse in Hedge. by apply depends_via with u.
Qed.

Lemma depends_walk n :
  depends_on all_imports package n -> exists p, Bfs.walk_to graph direct p n.
Proof.
  induction 1 as [caller target Hin Ht|caller target Hin _ [p Hp]].
  - exists [caller]. apply Bfs.walk_seed. apply direct_dependents_spec.
    by exists target.
  - exists (p ++ [caller]). apply Bfs.walk_step with target; [done|].
    by apply edge_build_reverse.
Qed.

(** the modules the search and the seeds cover are those that depend on
    the package *)
Lemma dependents_meaning (paths : gmap str (list str)) n :
  (forall n p, paths !! n = Some p ->
     (n ∉ direct) /\ Bfs.walk_to graph direct p n) ->
  (forall q n, Bfs.walk_to graph direct q n ->
     exists p, Bfs.recorded direct paths n = Some p /\ length p <= length q) ->
  n ∈ dom paths ∪ direct <-> depends_on all_imports package n.
Proof.
  intros Hsound Hmin. rewrite elem_of_union, elem_of_dom. split.
  - intros [[p Hp]|Hd].
    + destruct (Hsound n p Hp) as [_ Hw]. by apply walk_depends in Hw.
    + apply (walk_depends [n]). by apply Bfs.walk_seed.
  - intros [q Hq]%depends_walk. destruct (Hmin q n Hq) as (p & Hp & _).
    unfold Bfs.recorded in Hp. destruct (decide (n ∈ direct)); [by right|].
    left. by exists p.
Qed.

End PackageModes.

(** X12: mode [not_pkg_dep] reports exactly the known modules that do not
    import the package, or anything below it, directly or through a chain
    of imports. *)
Theorem not_pkg_dep_meaning
    (iter : option str -> gset str -> list str)
    (all_modules : gset str) (all_imports : list (str * str))
    (package : str) :
  (forall k s, iter k s ≡ₚ elements s) ->
  package <> [] ->
  exists not_dependent,
    not_pkg_dep iter all_modules all_imports (Some package)
    = Reported not_dependent
    /\ forall m,
         m ∈ not_dependent
         <-> m ∈ all_modules /\ ~ depends_on all_imports package m.
Proof.
  intros Hiter Hpkg.
  destruct (trace_result iter Hiter (build_reverse_dep_graph all_imports)
              (direct_dependents package all_imports))
    as (paths & Hres & Hsound & Hmin).
  exists (all_modules ∖ (dom paths ∪ direct_dependents package all_imports)).
  split.
  - unfold not_pkg_dep. rewrite (proj2 (truthy_true package)) by done.
    simpl. by rewrite Hres.
  - intros m. rewrite elem_of_difference.
    by rewrite (dependents_meaning all_imports package paths m Hsound Hmin).
Qed.

Lemma not_pkg_dep_meaning_witness :
  exists not_dependent,
    not_pkg_dep (fun _ => elements)
      {[lit "r.a"; lit "r.b"; lit "r.c"]}
      [(lit "r.a", lit "pkg.x"); (lit "r.b", lit "r.a"); (lit "r.c", lit "pkgs")]
      (Some (lit "pkg"))
    = Reported not_dependent
    /\ forall m,
         m ∈ not_dependent
         <-> m ∈ ({[lit "r.a"; lit "r.b"; lit "r.c"]} : gset str)
             /\ ~ depends_on
                    [(lit "r.a", lit "pkg.x"); (lit "r.b", lit "r.a");
                     (lit "r.c", lit "pkgs")]
                    (lit "pkg") m.
Proof.
  apply (not_pkg_dep_meaning (fun _ => elements)).
  - intros k s. reflexivity.
  - discriminate.
Defined.

(** X13: in mode [pkg_dep] every module of the first loop gets the
    [(indirect)] line with its recorded path, never the [(direct)] one,
    and the second loop prints every direct dependent; no module is
    printed twice, and the modules printed are exactly those that import
    the package, or anything below it, directly or through a chain of
    imports. *)
Theorem pkg_dep_lines
    (iter : option str -> gset str -> list str)
    (all_imports : list (str * str)) (package : str) :
  (forall k s, iter k s ≡ₚ elements s) ->
  package <> [] ->
  exists paths,
    trace_dependency_paths iter (build_reverse_dep_graph all_imports)
      (direct_dependents package all_imports) = Some paths
    /\ pkg_dep iter all_imports (Some package)
       = Reported (IndirectLine <$> paths,
                   direct_dependents package all_imports)
    /\ dom paths ## direct_dependents package all_imports
    /\ forall m,
         m ∈ dom paths ∪ direct_dependents package all_imports
         <-> depends_on all_imports package m.
Proof.
  intros Hiter Hpkg.
  destruct (trace_result iter Hiter (build_reverse_dep_graph all_imports)
              (direct_dependents package all_imports))
    as (paths & Hres & Hsound & Hmin).
  exists paths. split; [done|].
  assert (dom paths ## direct_dependents package all_imports) as Hdisj.
  { intros n [p Hp]%elem_of_dom Hd. by destruct (Hsound n p Hp). }
  split; [|split; [done|]].
  - unfold pkg_dep. rewrite (proj2 (truthy_true package)) by done.
    simpl. rewrite Hres. f_equal. f_equal.
    + apply map_eq. intros n. rewrite map_lookup_imap, lookup_fmap.
      destruct (paths !! n) as [p|] eqn:Hp; [|done]. simpl.
      destruct (Hsound n p Hp) as [Hn _]. by rewrite decide_False.
    + apply leibniz_equiv. intros n. rewrite elem_of_difference.
      split; [by intros [? _]|]. intros Hd. split; [done|].
      intros Hn. by apply (Hdisj n).
  - intros m. by apply dependents_meaning.
Qed.

Lemma pkg_dep_lines_witness :
  exists paths,
    trace_dependency_paths (fun _ => elements)
      (build_reverse_dep_graph
         [(lit "r.a", lit "pkg.x"); (lit "r.b", lit "r.a"); (lit "r.a", lit "r.b")])
      (direct_dependents (lit "pkg")
         [(lit "r.a", lit "pkg.x"); (lit "r.b", lit "r.a"); (lit "r.a", lit "r.b")])
    = Some paths
    /\ pkg_dep (fun _ => elements)
         [(lit "r.a", lit "pkg.x"); (lit "r.b", lit "r.a"); (lit "r.a", lit "r.b")]
         (Some (lit "pkg"))
       = Reported (IndirectLine <$> paths,
                   direct_dependents (lit "pkg")
                     [(lit "r.a", lit "pkg.x"); (lit "r.b", lit "r.a");
                      (lit "r.a", lit "r.b")])
    /\ dom paths
       ## direct_dependents (lit "pkg")
            [(lit "r.a", lit "pkg.x"); (lit "r.b", lit "r.a");
             (lit "r.a", lit "r.b")]
    /\ forall m,
         m ∈ dom paths
             ∪ direct_dependents (lit "pkg")
                 [(lit "r.a", lit "pkg.x"); (lit "r.b", lit "r.a");
                  (lit "r.a", lit "r.b")]
         <-> depends_on
               [(lit "r.a", lit "pkg.x"); (lit "r.b", lit "r.a");
                (lit "r.a", lit "r.b")]
               (lit "pkg") m.
Proof.
  apply (pkg_dep_lines (fun _ => elements)).
  - intros k s. reflexivity.
  - discriminate.
Defined.

(** ** Query Engine: the table of external imports *)

Lemma verbose_rows_imports caller targets :
  map snd (verbose_rows caller targets)
  = match targets with [] => [lit "-"] | _ => targets end.
Proof.
  destruct targets as [|t rest]; [done|]. simpl. f_equal.
  induction rest as [|x rest IH]; [done|]. simpl. by rewrite IH.
Qed.

(** X14: the table of mode [nodeps_verbose] has the modules of mode
    [nodeps] and no others; for each of them the import column lists all
    the imports of the module, in the order of the edge list and with
    their repetitions, or a single [-] when it imports nothing, and none
    of its edges is printed by mode [dep]. *)
Theorem nodeps_verbose_rows (all_modules : gset str)
    (all_imports : list (str * str)) :
  dom (nodeps_verbose all_modules all_imports)
  = nodeps all_modules all_imports
  /\ forall caller rows,
       nodeps_verbose all_modules all_imports !! caller = Some rows ->
       let targets :=
         map snd (List.filter (fun e => bool_decide (e.1 = caller)) all_imports)
       in
       rows = verbose_rows caller targets
       /\ map snd rows = match targets with [] => [lit "-"] | _ => targets end
       /\ forall target, (caller, target) ∉ dep all_modules all_imports.
Proof.
  assert (forall caller rows,
            nodeps_verbose all_modules all_imports !! caller = Some rows
            <-> caller ∈ nodeps all_modules all_imports
                /\ rows = verbose_rows caller
                            (externals all_modules all_imports caller))
    as Hlook.
  { intros caller rows. unfold nodeps_verbose.
    rewrite lookup_set_to_map by (by intros y y' _ _ ?).
    split.
    - by intros (y & Hy & [= -> ->]).
    - intros [Hc ->]. by exists caller. }
  split.
  - apply leibniz_equiv. intros caller. rewrite elem_of_dom. split.
    + intros [rows Hrows]. by apply Hlook in Hrows as [? _].
    + intros Hc. eexists. by apply Hlook.
  - intros caller rows [Hc ->]%Hlook targets.
    apply nodeps_spec in Hc as [Hknown Hnone].
    assert (externals all_modules all_imports caller = targets) as ->.
    { unfold externals, targets. f_equal. apply filter_ext_in.
      intros [c t] Hin. simpl. case_bool_decide as Hct; [|done]. subst c.
      simpl. rewrite bool_decide_false; [done|].
      intros Ht. apply Hnone. exists t. by rewrite list_elem_of_In. }
    split; [done|]. split; [apply verbose_rows_imports|].
    intros target Hin. unfold dep in Hin.
    apply list_elem_of_In, filter_In in Hin as [Hin Ht].
    apply bool_decide_eq_true in Ht. apply Hnone. exists target.
    by rewrite list_elem_of_In.
Qed.

(** ** Query Engine: imports outside the caller's directory *)

Section OutsideLocal.
Variable resolve : str -> list str.
Variable module_to_path : gmap str str.

Lemma outside_local_acc (all_imports : list (str * str))
    (acc : gmap str (list str)) caller :
  fold_left
    (fun (outside_local : gmap str (list str)) '(caller, imported) =>
       match module_to_path !! imported, module_to_path !! caller with
       | Some imported_file, Some caller_file =>
           let caller_dir :=
             pathlib.to_str (pathlib.parent (pathlib.parse caller_file)) in
           if relative_to (resolve imported_file) (resolve caller_dir)
           then outside_local
           else <[caller := default [] (outside_local !! caller) ++ [imported]]>
                  outside_local
       | _, _ => outside_local
       end)
    all_imports acc !! caller
  = match map snd
            (List.filter
               (fun e => bool_decide (e.1 = caller)
                         && outside_edge resolve module_to_path e)
               all_imports) with
    | [] => acc !! caller
    | l => Some (default [] (acc !! caller) ++ l)
    end.
Proof.
  revert acc. induction all_imports as [|[c i] rest IH]; intros acc; [done|].
  cbn [fold_left List.filter]. rewrite IH. clear IH.
  unfold outside_edge at 2. cbn [fst snd].
  destruct (module_to_path !! i) as [pi|]; cbn [andb].
  2:{ by rewrite andb_false_r. }
  destruct (module_to_path !! c) as [pc|].
  2:{ by rewrite andb_false_r. }
  cbv zeta. destruct (relative_to _ _); cbn [negb].
  { by rewrite andb_false_r. }
  rewrite andb_true_r. case_bool_decide as Hc.
  - subst c. rewrite lookup_insert_eq. cbn [map snd default].
    destruct (map snd _) as [|x l]; [done|].
    unfold id. by rewrite <- app_assoc.
  - by rewrite lookup_insert_ne.
Qed.

Lemma outside_local_lookup (all_imports : list (str * str)) caller :
  outside_local_dir resolve all_imports module_to_path !! caller
  = match map snd
            (List.filter
               (fun e => bool_decide (e.1 = caller)
                         && outside_edge resolve module_to_path e)
               all_imports) with
    | [] => None
    | l => Some l
    end.
Proof.
  unfold outside_local_dir. rewrite outside_local_acc, lookup_empty.
  by destruct (map snd _).
Qed.

(** X15: in mode [outside_local_dir] the entry of a caller is the list, in
    the order of the edge list and with repetitions, of the targets of its
    edges whose two ends have a file and whose target file is not in the
    tree of the directory of the caller's file; a caller without such an
    edge has no entry, and every listed target has a path in
    [module_to_path]. *)
Theorem outside_local_dir_entries (all_imports : list (str * str))
    (caller : str) :
  let listed :=
    map snd
      (List.filter
         (fun e => bool_decide (e.1 = caller)
                   && outside_edge resolve module_to_path e)
         all_imports) in
  outside_local_dir resolve all_imports module_to_path !! caller
  = match listed with [] => None | _ => Some listed end
  /\ forall imported,
       imported ∈ listed ->
       (caller, imported) ∈ all_imports
       /\ is_Some (module_to_path !! imported)
       /\ is_Some (module_to_path !! caller).
Proof.
  intros listed. split.
  - rewrite outside_local_lookup. fold listed. by destruct listed.
  - intros imported ([c i] & Hi & Hin)%list_elem_of_fmap. simpl in Hi.
    subst i. apply list_elem_of_In, filter_In in Hin as [Hin Hcond].
    apply andb_true_iff in Hcond as [Hc%bool_decide_eq_true Hout].
    simpl in Hc. subst c. split; [by apply list_elem_of_In|].
    unfold outside_edge in Hout. simpl in Hout.
    destruct (module_to_path !! imported); [|done].
    destruct (module_to_path !! caller); [|done].
    split; by eexists.
Qed.

End OutsideLocal.

Section LexicalPaths.
Import PyStr.
Local Abbreviation sep := posixpath.sep.




End LexicalPaths.



